(** * DominoAdapter: the server-side DOM adapter of platform-server

    A shallow embedding of [packages/platform-server/src/domino_adapter.ts]
    and the properties its specification states about it.

    Strings are sequences of code units below 256 ([string]); JavaScript
    values are the small universe [jsval]; a thrown exception is the [Throw]
    outcome of [result]; objects mutated in place are passed and returned. *)

From Stdlib Require Import ZArith Ascii String List Lia Permutation.
From stdpp Require Import gmap strings pretty sorting.

Local Open Scope Z_scope.

(** ** JavaScript values and exceptions *)

(** Object identities (what [===] compares on objects). *)
Abbreviation loc := positive.

(** The values the adapter handles.  [VNum] holds the integral numbers
    (node type constants; fractions, [NaN] and magnitudes printed with an
    exponent are left out); [VRef] is a reference to a heap object. *)
Inductive jsval : Type :=
  | VUndef
  | VNull
  | VBool (b : bool)
  | VNum (n : Z)
  | VStr (s : string)
  | VRef (l : loc).

Global Instance jsval_eq_dec : EqDecision jsval.
Proof. solve_decision. Defined.

(** [ToBoolean]: what [if (v)], [!v], [v || w] and [while (v)] test. *)
Definition truthy (v : jsval) : bool :=
  match v with
  | VUndef | VNull => false
  | VBool b => b
  | VNum n => negb (n =? 0)
  | VStr s => negb (String.eqb s "")
  | VRef _ => true
  end.

(** [ToString], as applied by [+] on a string and by [setAttribute].  It is
    exact on strings, [null], [undefined] and booleans; a number is printed
    in full, as JavaScript does below [10^21] only, and an object is given
    the text of a plain object. *)
Definition to_string (v : jsval) : string :=
  match v with
  | VUndef => "undefined"
  | VNull => "null"
  | VBool true => "true"
  | VBool false => "false"
  | VNum n => pretty n
  | VStr s => s
  | VRef _ => "[object Object]"
  end.

(** [a === b] on these values. *)
Definition strict_eq (a b : jsval) : bool := bool_decide (a = b).

(** The two exception classes the adapter can raise, with their message. *)
Inductive jserr : Type :=
  | Error (msg : string)
  | TypeError (msg : string).

Inductive result (A : Type) : Type :=
  | Ok (a : A)
  | Throw (e : jserr).
Arguments Ok {A} a.
Arguments Throw {A} e.

(** Sequencing: a [throw] aborts the rest of the function body. *)
Global Instance result_ret : MRet result := fun _ a => Ok a.
Global Instance result_bind : MBind result := fun _ _ k r =>
  match r with
  | Ok a => k a
  | Throw e => Throw e
  end.

(** [function _notImplemented(methodName)] *)
Definition _notImplemented (methodName : string) : jserr :=
  Error ("This method is not implemented in DominoAdapter: " +:+ methodName).

(** ** String primitives used by the style codec *)

(** White space and line terminators removed by [String.prototype.trim]
    (the code units below 256: TAB, LF, VT, FF, CR, SP, NBSP). *)
Definition is_white_space (c : ascii) : bool :=
  match c with
  | "009" | "010" | "011" | "012" | "013" | " " | "160" => true
  | _ => false
  end%char.

Fixpoint trim_start (s : string) : string :=
  match s with
  | EmptyString => EmptyString
  | String c r => if is_white_space c then trim_start r else s
  end.

Fixpoint trim_end (s : string) : string :=
  match s with
  | EmptyString => EmptyString
  | String c r =>
      match trim_end r with
      | EmptyString => if is_white_space c then EmptyString else String c EmptyString
      | r' => String c r'
      end
  end.

(** [s.trim()] *)
Definition trim (s : string) : string := trim_end (trim_start s).

(** [s.indexOf(c)] for a one-character needle: the first position of [c],
    or [-1]. *)
Fixpoint indexOf (c : ascii) (s : string) : Z :=
  match s with
  | EmptyString => -1
  | String d r =>
      if Ascii.eqb d c then 0
      else let i := indexOf c r in if i =? -1 then -1 else i + 1
  end.

(** [s.substr(start, len)]; [len = None] is the one-argument call. *)
Definition substr (s : string) (start : Z) (len : option Z) : string :=
  let size := Z.of_nat (String.length s) in
  let from := if start <? 0 then Z.max (size + start) 0 else Z.min start size in
  let count :=
    match len with
    | None => size - from
    | Some n => Z.min (Z.max n 0) (size - from)
    end in
  String.substring (Z.to_nat from) (Z.to_nat count) s.

Definition is_semicolon (c : ascii) : bool := Ascii.eqb c ";".

(** [s.split(/;+/g)]: the pieces of [s] between maximal runs of semicolons.
    A leading or trailing run leaves an empty piece at that end, and the
    result is never the empty array.  [in_run] tells that the previous
    character was part of the separator being skipped. *)
Fixpoint split_go (in_run : bool) (s : string) : list string :=
  match s with
  | EmptyString => [EmptyString]
  | String c r =>
      if is_semicolon c then
        if in_run then split_go true r else EmptyString :: split_go true r
      else
        match split_go false r with
        | piece :: pieces => String c piece :: pieces
        | [] => [String c EmptyString]
        end
  end.

Definition split_semicolons (s : string) : list string := split_go false s.

(** ** Plain objects used as string-keyed maps

    The style map is an object literal [{}] filled by assignment.  It is kept
    as the list of its own properties in creation order, with values in [V]:
    strings while the attribute is parsed, any value once [setStyle] has
    stored its argument. *)
Abbreviation PlainObject V := (list (string * V)).

(** [o.hasOwnProperty(k)] resolved on [Object.prototype]. *)
Definition has_own {V} (o : PlainObject V) (k : string) : bool :=
  bool_decide (k ∈ o.*1).
Global Arguments has_own : simpl never.

(** [o[k]] for an own property. *)
Fixpoint get_own {V} (o : PlainObject V) (k : string) : option V :=
  match o with
  | [] => None
  | (k', v) :: r => if String.eqb k' k then Some v else get_own r k
  end.

Fixpoint put_own {V} (o : PlainObject V) (k : string) (v : V) : PlainObject V :=
  match o with
  | [] => [(k, v)]
  | (k', v') :: r =>
      if String.eqb k' k then (k', v) :: r else (k', v') :: put_own r k v
  end.

(** [o[k] = v].  An existing property keeps its place, a new one goes last.
    The key [__proto__] is the accessor inherited from [Object.prototype]:
    assigning to it never creates an own property (a string is ignored, and
    [null] only detaches the prototype, which nothing below consults).  This
    covers the values a style has, strings, [null] and [undefined]; an
    object assigned to [__proto__] would become the prototype and is not
    covered. *)
Definition obj_set {V} (o : PlainObject V) (k : string) (v : V) : PlainObject V :=
  if String.eqb k "__proto__" then o else put_own o k v.

(** The value of a decimal numeral. *)
Fixpoint digits_value (s : string) (acc : N) : option N :=
  match s with
  | EmptyString => Some acc
  | String c r =>
      match Ascii.is_nat c with
      | Some d => digits_value r (10 * acc + N.of_nat d)%N
      | None => None
      end
  end.

(** A key is an array index when it is the canonical numeral of an integer
    below [2^32 - 1]. *)
Definition array_index (k : string) : option N :=
  match k with
  | EmptyString => None
  | String "0" EmptyString => Some 0%N
  | String "0" _ => None
  | _ =>
      match digits_value k 0 with
      | Some n => if (n <? 4294967295)%N then Some n else None
      | None => None
      end
  end.

Definition index_entry (k : string) : option (N * string) :=
  match array_index k with
  | Some n => Some (n, k)
  | None => None
  end.

Definition index_le (a b : N * string) : Prop := (a.1 ≤ b.1)%N.

Global Instance index_le_dec : RelDecision index_le.
Proof. intros a b. unfold index_le. apply _. Defined.

(** The keys visited by [for (const key in o)]: array indices in ascending
    numeric order, then the other keys in creation order. *)
Definition forin_keys {V} (o : PlainObject V) : list string :=
  (merge_sort index_le (omap index_entry o.*1)).*2 ++
  filter (fun k => array_index k = None) o.*1.

(** ** Objects of the document engine

    What the adapter touches of a node (or window) of the engine: its
    attributes, through the engine's [getAttribute] and [setAttribute], and
    its properties, read and written by name ([el.parent], [el[name]]). *)
Record EngineObject : Type := mkObject {
  attributes : gmap string string;
  properties : gmap string jsval;
}.

Abbreviation Element := EngineObject.

(** [element.getAttribute(name)]: the stored string, [None] for [null]. *)
Definition el_getAttribute (el : Element) (name : string) : option string :=
  attributes el !! name.

(** [element.setAttribute(name, value)] *)
Definition el_setAttribute (el : Element) (name value : string) : Element :=
  mkObject (<[name := value]> (attributes el)) (properties el).

(** [el[name]]: a missing property reads as [undefined]. *)
Definition el_get (el : Element) (name : string) : jsval :=
  default VUndef (properties el !! name).

(** [el[name] = value] for a name that is a plain slot of the object, as
    the fields the adapter adds itself are ([shadowRoot], [parent]). *)
Definition el_set (el : Element) (name : string) (value : jsval) : Element :=
  mkObject (attributes el) (<[name := value]> (properties el)).

(** ** The style codec *)

(** The body of the [for] loop of [_readStyleAttribute], run over the
    remaining entries of [styleList]. *)
Fixpoint read_styles (styleList : list string) (styleMap : PlainObject string)
    : result (PlainObject string) :=
  match styleList with
  | [] => Ok styleMap
  | style :: rest =>
      if (0 <? Z.of_nat (String.length style)) then
        let colon := indexOf ":" style in
        if colon =? -1 then Throw (Error ("Invalid CSS style: " +:+ style))
        else
          read_styles rest
            (obj_set styleMap
               (trim (substr style 0 (Some colon)))
               (trim (substr style (colon + 1) None)))
      else read_styles rest styleMap
  end.

Definition _readStyleAttribute (element : Element)
    : result (PlainObject string) :=
  let styleMap : PlainObject string := [] in
  match el_getAttribute element "style" with
  | Some styleAttribute =>
      if truthy (VStr styleAttribute)
      then read_styles (split_semicolons styleAttribute) styleMap
      else Ok styleMap
  | None => Ok styleMap
  end.

(** One turn of the [for ... in] loop of [_writeStyleAttribute]. *)
Definition write_style (styleMap : PlainObject jsval)
    (styleAttrValue key : string) : string :=
  let newValue := default VUndef (get_own styleMap key) in
  if truthy newValue
  then styleAttrValue +:+ key +:+ ":" +:+ to_string newValue +:+ ";"
  else styleAttrValue.

Definition _writeStyleAttribute (element : Element)
    (styleMap : PlainObject jsval) : Element :=
  let styleAttrValue := foldl (write_style styleMap) "" (forin_keys styleMap) in
  el_setAttribute element "style" styleAttrValue.

(** The parsed map seen as an object of arbitrary values. *)
Definition as_any (styleMap : PlainObject string) : PlainObject jsval :=
  prod_map id VStr <$> styleMap.

(** [setStyle(element, styleName, styleValue)]; the result is the element
    after the call. *)
Definition setStyle (element : Element) (styleName : string)
    (styleValue : jsval) : result Element :=
  styleMap ← _readStyleAttribute element;
  let styleMap := obj_set (as_any styleMap) styleName styleValue in
  mret (_writeStyleAttribute element styleMap).

Definition removeStyle (element : Element) (styleName : string)
    : result Element :=
  setStyle element styleName VNull.

(** [styleMap.hasOwnProperty(styleName)] is a property lookup followed by a
    call: a style named [hasOwnProperty] shadows the inherited method with a
    string, and calling a string is a [TypeError]. *)
Definition call_hasOwnProperty (styleMap : PlainObject string)
    (styleName : string) : result bool :=
  match get_own styleMap "hasOwnProperty" with
  | Some _ => Throw (TypeError "styleMap.hasOwnProperty is not a function")
  | None => Ok (has_own styleMap styleName)
  end.

Definition getStyle (element : Element) (styleName : string) : result string :=
  styleMap ← _readStyleAttribute element;
  own ← call_hasOwnProperty styleMap styleName;
  mret (if own : bool then default "" (get_own styleMap styleName) else "").

(** [hasStyle(element, styleName, styleValue?)]; [None] is the call without
    [styleValue]. *)
Definition hasStyle (element : Element) (styleName : string)
    (styleValue : option string) : result bool :=
  got ← getStyle element styleName;
  let value := if truthy (VStr got) then got else "" in
  mret (match styleValue with
        | Some styleValue =>
            if truthy (VStr styleValue) then String.eqb value styleValue
            else (0 <? Z.of_nat (String.length value))
        | None => (0 <? Z.of_nat (String.length value))
        end).

(** ** Properties and attributes *)

(** Modelled from the spec: [getAttribute] and [setAttribute] are inherited
    from the browser adapter, which is not part of this file; [href]
    "delegates to attribute read" and "mirrors the write onto the attribute",
    that is, they forward to the element's own attribute accessors. *)
Definition getAttribute (el : Element) (attribute : string) : jsval :=
  from_option VStr VNull (el_getAttribute el attribute).

(** Modelled from the spec: the inherited [setAttribute], which hands the
    value to the element's [setAttribute]; the engine stores its string
    conversion. *)
Definition setAttribute (el : Element) (name : string) (value : jsval)
    : Element :=
  el_setAttribute el name (to_string value).

Definition getProperty (el : Element) (name : string) : jsval :=
  if String.eqb name "href" then getAttribute el "href"
  else if String.eqb name "innerText" then el_get el "textContent"
  else el_get el name.

(** [setProperty] only writes, and what a write does belongs to the engine:
    a property of a node can be an accessor that converts, resolves or
    reflects what is assigned to it, or one without a setter, on which the
    assignment of strict code throws; and [setAttribute] stores a string of
    the engine's making.  The writes are therefore requests to an engine,
    whatever it is. *)
Inductive EngineWrite : Type :=
  | SetAttributeWrite (name : string) (value : jsval)
  | PutWrite (name : string) (value : jsval).

(** An engine carries the writes out on its own representation [E] of an
    element, or throws: [el.setAttribute(name, value)] and
    [el[name] = value]. *)
Class Engine (E : Type) : Type := engine_write : E → EngineWrite → result E.

(** Modelled from the spec: the inherited [setAttribute] as [setProperty]
    calls it, which "mirrors the write onto the attribute": it hands the
    name and the value to the [setAttribute] of the element. *)
Definition mirror_attribute {E} `{Engine E} (el : E) (name : string)
    (value : jsval) : result E :=
  engine_write el (SetAttributeWrite name value).

Definition setProperty {E} `{Engine E} (el : E) (name : string) (value : jsval)
    : result E :=
  el ← (if String.eqb name "href" then mirror_attribute el "href" value
        else if String.eqb name "innerText"
        then engine_write el (PutWrite "textContent" value)
        else Ok el);
  engine_write el (PutWrite name value).

(** The engine that does nothing but keep the writes it was asked for,
    oldest first. *)
Global Instance recording_engine : Engine (list EngineWrite) :=
  fun log write => Ok (log ++ [write]).

(** ** Capabilities without a server-side meaning *)

Definition getHistory : result jsval := Throw (_notImplemented "getHistory").
Definition getLocation : result jsval := Throw (_notImplemented "getLocation").
Definition getDistributedNodes (el : jsval) : result jsval :=
  Throw (_notImplemented "getDistributedNodes").
Definition getCookie (name : string) : result string :=
  Throw (_notImplemented "getCookie").
Definition setCookie (name value : string) : result unit :=
  Throw (_notImplemented "setCookie").

(** ** The object graph *)

Abbreviation Heap := (gmap loc EngineObject).

(** [v.name] where [v] is neither [null] nor [undefined].  The names read
    below are not members of the primitive wrappers, so a primitive yields
    [undefined]. *)
Definition prop (h : Heap) (v : jsval) (name : string) : jsval :=
  match v with
  | VRef l => from_option (fun o => el_get o name) VUndef (h !! l)
  | _ => VUndef
  end.
Global Arguments prop : simpl never.

(** [v.name] in general: reading through [null] or [undefined] throws (the
    message is worded as V8 words it). *)
Definition get_prop (h : Heap) (v : jsval) (name : string) : result jsval :=
  match v with
  | VUndef | VNull =>
      Throw (TypeError
        ("Cannot read property '" +:+ name +:+ "' of " +:+ to_string v))
  | _ => Ok (prop h v name)
  end.

(** [contains(nodeA, nodeB)].  The [while] loop has no bound of its own:
    [fuel] counts the evaluations of its condition that are allowed, and
    [None] means that they did not suffice. *)
Fixpoint contains_loop (h : Heap) (nodeA : jsval) (fuel : nat) (inner : jsval)
    : option bool :=
  match fuel with
  | O => None
  | S fuel =>
      if truthy inner then
        if strict_eq inner nodeA then Some true
        else contains_loop h nodeA fuel (prop h inner "parent")
      else Some false
  end.

Definition contains (h : Heap) (fuel : nat) (nodeA nodeB : jsval)
    : option bool :=
  contains_loop h nodeA fuel nodeB.

(** The process: the engine's objects, the static field
    [DominoAdapter.defaultDoc] ([None] while it is unassigned) and the
    deliveries made by the engine's [dispatchEvent], oldest first. *)
Record World : Type := mkWorld {
  heap : Heap;
  defaultDoc : option loc;
  dispatched : list (loc * jsval);
}.

(** The engine's [domino.createDocument()]: a new document object.  Of its
    members only the node type and the DOM node type constants are kept. *)
Definition new_document : EngineObject :=
  mkObject ∅
    (<["nodeType" := VNum 9]> (<["ELEMENT_NODE" := VNum 1]>
     (<["TEXT_NODE" := VNum 3]> (<["COMMENT_NODE" := VNum 8]> ∅)))).

Definition createDocument (w : World) : loc * World :=
  let l := fresh (dom (heap w)) in
  (l, mkWorld (<[l := new_document]> (heap w)) (defaultDoc w) (dispatched w)).

Definition getDefaultDocument (w : World) : loc * World :=
  match defaultDoc w with
  | Some doc => (doc, w)
  | None =>
      let '(doc, w) := createDocument w in
      (doc, mkWorld (heap w) (Some doc) (dispatched w))
  end.

(** The value of the expression [DominoAdapter.defaultDoc]. *)
Definition static_defaultDoc (w : World) : jsval :=
  from_option VRef VUndef (defaultDoc w).

Definition isTextNode (w : World) (node : jsval) : result bool :=
  nodeType ← get_prop (heap w) node "nodeType";
  TEXT_NODE ← get_prop (heap w) (static_defaultDoc w) "TEXT_NODE";
  mret (strict_eq nodeType TEXT_NODE).

Definition isCommentNode (w : World) (node : jsval) : result bool :=
  nodeType ← get_prop (heap w) node "nodeType";
  COMMENT_NODE ← get_prop (heap w) (static_defaultDoc w) "COMMENT_NODE";
  mret (strict_eq nodeType COMMENT_NODE).

Definition isElementNode (w : World) (node : jsval) : result bool :=
  if truthy node then
    nodeType ← get_prop (heap w) node "nodeType";
    ELEMENT_NODE ← get_prop (heap w) (static_defaultDoc w) "ELEMENT_NODE";
    mret (strict_eq nodeType ELEMENT_NODE)
  else mret false.

(** The engine's [target.dispatchEvent(evt)]: the event is delivered to the
    listeners of [target].  Only objects have the method. *)
Definition engine_dispatchEvent (w : World) (target evt : jsval)
    : result World :=
  match target with
  | VRef l => Ok (mkWorld (heap w) (defaultDoc w) (dispatched w ++ [(l, evt)]))
  | VUndef | VNull =>
      Throw (TypeError
        ("Cannot read property 'dispatchEvent' of " +:+ to_string target))
  | _ => Throw (TypeError "win.dispatchEvent is not a function")
  end.

(** [dispatchEvent(el, evt)]; the result is the process after the call. *)
Definition dispatchEvent (w : World) (el : loc) (evt : jsval) : result World :=
  w ← engine_dispatchEvent w (VRef el) evt;
  let ownerDocument := prop (heap w) (VRef el) "ownerDocument" in
  let doc := if truthy ownerDocument then ownerDocument else VRef el in
  let win := prop (heap w) doc "defaultView" in
  if truthy win then engine_dispatchEvent w win evt else mret w.

(** * Vocabulary of the specification *)

(** The document owning [el], or [el] itself when it has none (a document
    has a [null] owner). *)
Definition owning_document (h : Heap) (el : loc) : loc :=
  match prop h (VRef el) "ownerDocument" with
  | VRef doc => doc
  | _ => el
  end.

(** The default view of a document, when it has one. *)
Definition default_view (h : Heap) (doc : loc) : option loc :=
  match prop h (VRef doc) "defaultView" with
  | VRef win => Some win
  | _ => None
  end.

(** The engine's objects hold, in [ownerDocument], a document or [null] and,
    in [defaultView], a window, [null] or nothing. *)
Definition object_or_nullish (v : jsval) : Prop :=
  match v with
  | VRef _ | VNull | VUndef => True
  | _ => False
  end.

(** How many times the listeners of [target] were handed [evt]. *)
Definition observed (log : list (loc * jsval)) (target : loc) (evt : jsval)
    : nat :=
  length (filter (fun d => d = (target, evt)) log).

Global Arguments observed : simpl never.

(** A page with an element [1], its document [2], the window [3] of that
    document and an event [4]. *)
Definition sample_page : World :=
  mkWorld
    (<[1%positive := mkObject ∅ {["ownerDocument" := VRef 2; "parent" := VRef 2]}]>
     (<[2%positive := mkObject ∅ {["ownerDocument" := VNull; "defaultView" := VRef 3]}]>
      (<[3%positive := mkObject ∅ ∅]>
       (<[4%positive := mkObject ∅ {["type" := VStr "click"]}]> ∅))))
    None [].


(** [c] occurs in [s]. *)
Fixpoint occurs (c : ascii) (s : string) : bool :=
  match s with
  | EmptyString => false
  | String d r => Ascii.eqb d c || occurs c r
  end.

(** The non-empty segments of a style attribute. *)
Definition segments (styleAttribute : string) : list string :=
  filter (fun segment => segment ≠ "") (split_semicolons styleAttribute).

(** A segment that is not empty and has no colon. *)
Definition malformed (segment : string) : Prop :=
  segment ≠ "" ∧ occurs ":" segment = false.

(** An element carrying the given [style] attribute and nothing else. *)
Definition styled (styleAttribute : string) : Element :=
  mkObject {["style" := styleAttribute]} ∅.

(** [p] is the parent of the node [c]: [c.parent === p]. *)
Definition parent_link (h : Heap) (c p : loc) : Prop :=
  prop h (VRef c) "parent" = VRef p.

(** The tree invariant: every node lies at some [depth], and its parent
    lies at a smaller one, so that no node is above itself. *)
Definition upward (h : Heap) (depth : loc → nat) : Prop :=
  ∀ c p, parent_link h c p → (depth p < depth c)%nat.

(** The depths in [sample_page]: the element is below its document. *)
Definition sample_depth (l : loc) : nat :=
  if decide (l = 1%positive) then 1%nat else 0%nat.

(** A detached node, alone in its heap. *)
Definition lone_node : Heap := {[1%positive := mkObject ∅ ∅]}.

(** The text of [s] before the first [c] (all of [s] when there is none)
    and the text after it (nothing when there is none). *)
Fixpoint before (c : ascii) (s : string) : string :=
  match s with
  | EmptyString => EmptyString
  | String d r => if Ascii.eqb d c then EmptyString else String d (before c r)
  end.

Fixpoint after (c : ascii) (s : string) : string :=
  match s with
  | EmptyString => EmptyString
  | String d r => if Ascii.eqb d c then r else after c r
  end.

(** The key and value a segment stands for: what surrounds its first colon,
    with the white space at both ends of each removed. *)
Definition parsed_entry (segment : string) : string * string :=
  (trim (before ":" segment), trim (after ":" segment)).

(** The reading of the specification's words: the key is only
    left-trimmed. *)
Definition stated_entry (segment : string) : string * string :=
  (trim_start (before ":" segment), trim (after ":" segment)).

(** The map obtained by assigning the entry of each non-empty segment, in
    order, to an empty object. *)
Definition assign_entry (entry : string → string * string)
    (styleMap : PlainObject string) (segment : string) : PlainObject string :=
  obj_set styleMap (entry segment).1 (entry segment).2.

Definition parse_with (entry : string → string * string)
    (styleAttribute : string) : PlainObject string :=
  foldl (assign_entry entry) [] (segments styleAttribute).

(** Every non-empty segment has a colon. *)
Definition well_formed (styleAttribute : string) : Prop :=
  Forall (fun segment => occurs ":" segment = true) (segments styleAttribute).

(** The [style] attribute as a string, empty when the attribute is absent. *)
Definition style_text (el : Element) : string :=
  default "" (el_getAttribute el "style").

(** What [key + ':' + value + ';'] appends, per written entry. *)
Definition emit (entries : list (string * string)) : string :=
  foldr (fun entry rest => entry.1 +:+ ":" +:+ entry.2 +:+ ";" +:+ rest) ""
    entries.

(** The entries [_writeStyleAttribute] writes: in [for ... in] order, those
    whose value is truthy. *)
Definition written_entry (styleMap : PlainObject jsval) (key : string)
    : option (string * string) :=
  match get_own styleMap key with
  | Some value => if truthy value then Some (key, to_string value) else None
  | None => None
  end.

Definition written_entries (styleMap : PlainObject jsval)
    : list (string * string) :=
  omap (written_entry styleMap) (forin_keys styleMap).

(** A style name that survives serialization and parsing: trimmed, free of
    colons and semicolons, and not the prototype accessor. *)
Definition plain_name (k : string) : Prop :=
  trim k = k ∧ occurs ":" k = false ∧ occurs ";" k = false ∧ k ≠ "__proto__".

(** A style text that survives them: trimmed and free of semicolons. *)
Definition plain_text (v : string) : Prop :=
  trim v = v ∧ occurs ";" v = false.

(** The values [setStyle] is given: a plain text, [null] or [undefined]. *)
Definition plain_value (v : jsval) : Prop :=
  match v with
  | VStr s => plain_text s
  | VNull | VUndef => True
  | _ => False
  end.

(** A string that does not start with white space. *)
Definition starts_clean (s : string) : Prop :=
  match s with
  | EmptyString => True
  | String c _ => is_white_space c = false
  end.

(** The text written between two semicolons for an entry. *)
Definition body (entry : string * string) : string :=
  entry.1 +:+ String ":" entry.2.

(** Maps whose keys are distinct plain names: with plain texts as values,
    as parsed, or with the values [setStyle] may add. *)
Definition plain_map (m : PlainObject string) : Prop :=
  NoDup m.*1 ∧ Forall (fun e => plain_name e.1 ∧ plain_text e.2) m.

Definition plain_any_map (m : PlainObject jsval) : Prop :=
  NoDup m.*1 ∧ Forall (fun e => plain_name e.1 ∧ plain_value e.2) m.

(** * Further vocabulary *)

(** What remains of a parsed value once the map has been written and read
    again: an empty text is dropped. *)
Definition kept (value : option string) : option string :=
  match value with
  | Some s => if decide (s = "") then None else Some s
  | None => None
  end.

(** What [_writeStyleAttribute] leaves of a value: its text when it is
    truthy. *)
Definition written (value : option jsval) : option string :=
  match value with
  | Some v => if truthy v then Some (to_string v) else None
  | None => None
  end.

(** Maps whose keys are distinct and whose truthy entries are plain: what
    [_writeStyleAttribute] can write so that it is read back as written. *)
Definition writable_map (m : PlainObject jsval) : Prop :=
  NoDup m.*1 ∧
  Forall (fun e => truthy e.2 = true → plain_name e.1 ∧ plain_value e.2) m.

(** The outcome of [getStyle] on an element whose attribute parses to
    [styleMap]. *)
Definition read_style (styleMap : PlainObject string) (styleName : string)
    : result string :=
  match get_own styleMap "hasOwnProperty" with
  | Some _ => Throw (TypeError "styleMap.hasOwnProperty is not a function")
  | None => Ok (default "" (get_own styleMap styleName))
  end.

(** An element has no style when the attribute is absent or empty. *)
Definition unstyled (el : Element) : Prop := style_text el = "".

(** A node whose [parent] is itself, alone in its heap. *)
Definition self_parent : Heap :=
  {[1%positive := mkObject ∅ {["parent" := VRef 1]}]}.

(** ** The synthetic shadow root *)

(** [target.name = value] on the object graph.  Module code is strict:
    assigning through [null], [undefined] or a primitive throws. *)
Definition set_prop (w : World) (target : jsval) (name : string)
    (value : jsval) : result World :=
  match target with
  | VRef l =>
      Ok (mkWorld (alter (fun o => el_set o name value) l (heap w))
            (defaultDoc w) (dispatched w))
  | VUndef | VNull =>
      Throw (TypeError
        ("Cannot set property '" +:+ name +:+ "' of " +:+ to_string target))
  | _ =>
      Throw (TypeError
        ("Cannot create property '" +:+ name +:+ "' on " +:+ to_string target))
  end.

(** The engine's [doc.createDocumentFragment()]: a new object, of which the
    node type and the owner are kept. *)
Definition new_fragment (doc : loc) : EngineObject :=
  mkObject ∅ {["nodeType" := VNum 11; "ownerDocument" := VRef doc]}.

Definition createDocumentFragment (w : World) (doc : loc) : loc * World :=
  let l := fresh (dom (heap w)) in
  (l, mkWorld (<[l := new_fragment doc]> (heap w)) (defaultDoc w) (dispatched w)).

(** [createShadowRoot(el, doc)], called with both arguments. *)
Definition createShadowRoot (w : World) (el doc : loc)
    : result (jsval * World) :=
  let '(fragment, w) := createDocumentFragment w doc in
  w ← set_prop w (VRef el) "shadowRoot" (VRef fragment);
  shadowRoot ← get_prop (heap w) (VRef el) "shadowRoot";
  w ← set_prop w shadowRoot "parent" (VRef el);
  shadowRoot ← get_prop (heap w) (VRef el) "shadowRoot";
  mret (shadowRoot, w).

Definition getShadowRoot (w : World) (el : jsval) : result jsval :=
  get_prop (heap w) el "shadowRoot".

(** [node.shadowRoot != null]: neither [null] nor [undefined]. *)
Definition hasShadowRoot (w : World) (node : jsval) : result bool :=
  shadowRoot ← get_prop (heap w) node "shadowRoot";
  mret (match shadowRoot with VUndef | VNull => false | _ => true end).

(** ** Global event targets *)

Definition getGlobalEventTarget (h : Heap) (doc : jsval) (target : string)
    : result jsval :=
  if String.eqb target "window" then get_prop h doc "defaultView"
  else if String.eqb target "document" then Ok doc
  else if String.eqb target "body" then get_prop h doc "body"
  else Ok VNull.

(** The values the signature of [setStyle] admits: a string, [null], or
    [undefined] for the argument left out. *)
Definition style_argument (value : jsval) : Prop :=
  match value with
  | VStr _ | VNull | VUndef => True
  | _ => False
  end.
(** * Properties *)

(** ** Unsupported capabilities *)

(** C7. [getHistory], [getLocation], [getDistributedNodes], [getCookie] and
    [setCookie] throw, whatever their arguments, the error
    "This method is not implemented in DominoAdapter: " followed by their own
    name, and therefore never return a value. *)
Theorem unsupported_capabilities_throw (el : jsval) (name value : string) :
  let not_implemented (cap : string) :=
    Error ("This method is not implemented in DominoAdapter: " +:+ cap) in
  (getHistory = Throw (not_implemented "getHistory") ∧
   getLocation = Throw (not_implemented "getLocation") ∧
   getDistributedNodes el = Throw (not_implemented "getDistributedNodes") ∧
   getCookie name = Throw (not_implemented "getCookie") ∧
   setCookie name value = Throw (not_implemented "setCookie")) ∧
  ((∀ r, getHistory ≠ Ok r) ∧ (∀ r, getLocation ≠ Ok r) ∧
   (∀ r, getDistributedNodes el ≠ Ok r) ∧ (∀ r, getCookie name ≠ Ok r) ∧
   (∀ r, setCookie name value ≠ Ok r)).
Proof.
  split.
  - repeat split; reflexivity.
  - repeat split; intros r; discriminate.
Qed.

(** ** Properties and attributes *)

Lemma el_get_set el name value : el_get (el_set el name value) name = value.
Proof. unfold el_get, el_set; simpl. by rewrite lookup_insert_eq. Qed.

Lemma el_get_set_ne el name name' value :
  name ≠ name' → el_get (el_set el name value) name' = el_get el name'.
Proof. intros. unfold el_get, el_set; simpl. by rewrite lookup_insert_ne. Qed.

Lemma el_getAttribute_set el name value :
  el_getAttribute (el_setAttribute el name value) name = Some value.
Proof. unfold el_getAttribute, el_setAttribute; simpl. by rewrite lookup_insert_eq. Qed.

Lemma el_getAttribute_set_ne el name name' value :
  name ≠ name' →
  el_getAttribute (el_setAttribute el name value) name' = el_getAttribute el name'.
Proof.
  intros. unfold el_getAttribute, el_setAttribute; simpl.
  by rewrite lookup_insert_ne.
Qed.

Lemma getProperty_other el name :
  name ≠ "href" → name ≠ "innerText" → getProperty el name = el_get el name.
Proof.
  intros Hh Hi. unfold getProperty.
  destruct (String.eqb_spec name "href"); [done|].
  by destruct (String.eqb_spec name "innerText").
Qed.

(** C5. On an element whose [href] attribute holds the string [v],
    [getProperty(el, "href")] is [v] itself, also right after
    [setAttribute(el, "href", v)] and whatever the [href] property of the
    node holds; [getProperty(el, "innerText")] is the [textContent] of [el];
    any other name is read as the property of that name. *)
Theorem getProperty_spec (el : Element) (v : string) :
  (el_getAttribute el "href" = Some v → getProperty el "href" = VStr v) ∧
  getProperty (setAttribute el "href" (VStr v)) "href" = VStr v ∧
  (∀ resolved,
     getProperty (el_set (setAttribute el "href" (VStr v)) "href" resolved)
       "href" = VStr v) ∧
  getProperty el "innerText" = el_get el "textContent" ∧
  (∀ name, name ≠ "href" → name ≠ "innerText" →
     getProperty el name = el_get el name).
Proof.
  repeat split.
  - intros H. unfold getProperty, getAttribute; simpl. by rewrite H.
  - unfold getProperty, getAttribute, setAttribute; simpl.
    by rewrite el_getAttribute_set.
  - intros resolved. unfold getProperty, getAttribute, setAttribute; simpl.
    unfold el_getAttribute, el_set, el_setAttribute; simpl.
    by rewrite lookup_insert_eq.
  - apply getProperty_other.
Qed.

Lemma getProperty_spec_witness :
  let el := mkObject {["href" := "/x"]} {["href" := VStr "http://host/x"]} in
  el_getAttribute el "href" = Some "/x" ∧ getProperty el "href" = VStr "/x".
Proof.
  split; [reflexivity|].
  apply (getProperty_spec
           (mkObject {["href" := "/x"]} {["href" := VStr "http://host/x"]}) "/x").
  reflexivity.
Defined.

(** C6. Whatever the engine, [setProperty(el, "href", v)] asks it to set
    the attribute [href] to [v] and then, unless that threw, to assign [v]
    to the property [href]; [setProperty(el, "innerText", v)] asks it to
    assign [v] to [textContent] and then, unless that threw, to
    [innerText]; for any other name it asks for the assignment to the
    property of that name and for nothing else.  On the engine that records
    what it is asked, these are, in this order, the only entries a call
    adds. *)
Theorem setProperty_spec (E : Type) (engine : Engine E) (el : E)
    (log : list EngineWrite) (v : jsval) :
  (setProperty el "href" v
   = (el' ← engine_write el (SetAttributeWrite "href" v);
      engine_write el' (PutWrite "href" v)) ∧
   setProperty el "innerText" v
   = (el' ← engine_write el (PutWrite "textContent" v);
      engine_write el' (PutWrite "innerText" v)) ∧
   (∀ name, name ≠ "href" → name ≠ "innerText" →
      setProperty el name v = engine_write el (PutWrite name v))) ∧
  (setProperty log "href" v
   = Ok (log ++ [SetAttributeWrite "href" v; PutWrite "href" v]) ∧
   setProperty log "innerText" v
   = Ok (log ++ [PutWrite "textContent" v; PutWrite "innerText" v]) ∧
   (∀ name, name ≠ "href" → name ≠ "innerText" →
      setProperty log name v = Ok (log ++ [PutWrite name v]))).
Proof.
  assert (Hother : ∀ (F : Type) (engine' : Engine F) (x : F) name,
            name ≠ "href" → name ≠ "innerText" →
            setProperty x name v = engine_write x (PutWrite name v)).
  { intros F engine' x name Hhref Hinner. unfold setProperty.
    destruct (String.eqb_spec name "href"); [done|].
    by destruct (String.eqb_spec name "innerText"). }
  split.
  - split; [done|]. split; [done|]. apply Hother.
  - split; [|split].
    + unfold setProperty, mirror_attribute, engine_write, recording_engine.
      cbn. by rewrite <- app_assoc.
    + unfold setProperty, engine_write, recording_engine.
      cbn. by rewrite <- app_assoc.
    + intros name Hhref Hinner. by rewrite Hother.
Qed.

Lemma setProperty_spec_witness :
  "title" ≠ "href" ∧ "title" ≠ "innerText" ∧
  setProperty [SetAttributeWrite "id" (VStr "a")] "title" (VStr "t")
  = Ok [SetAttributeWrite "id" (VStr "a"); PutWrite "title" (VStr "t")].
Proof.
  split; [discriminate|]. split; [discriminate|].
  apply (setProperty_spec (list EngineWrite) recording_engine
           [SetAttributeWrite "id" (VStr "a")]
           [SetAttributeWrite "id" (VStr "a")] (VStr "t"));
    discriminate.
Defined.

(** ** Event dispatch *)

Lemma observed_snoc log target evt target' :
  observed (log ++ [(target', evt)]) target evt
  = if decide (target' = target) then S (observed log target evt)
    else observed log target evt.
Proof.
  unfold observed. rewrite filter_app, length_app. cbn.
  destruct (decide (target' = target)) as [->|Hne].
  - rewrite decide_True by done. cbn. lia.
  - rewrite decide_False by congruence. cbn. lia.
Qed.

(** C8. [dispatchEvent(el, evt)] delivers [evt] to [el] and then, when the
    document owning [el] ([el] itself for a document) has a default view,
    delivers the same [evt] to that view, and makes no other delivery: each
    of the two targets observes the event once more than before. *)
Theorem dispatchEvent_fanout (w : World) (el : loc) (evt : jsval) :
  object_or_nullish (prop (heap w) (VRef el) "ownerDocument") →
  object_or_nullish
    (prop (heap w) (VRef (owning_document (heap w) el)) "defaultView") →
  ∃ w',
    dispatchEvent w el evt = Ok w' ∧
    heap w' = heap w ∧ defaultDoc w' = defaultDoc w ∧
    match default_view (heap w) (owning_document (heap w) el) with
    | Some win =>
        dispatched w' = dispatched w ++ [(el, evt); (win, evt)] ∧
        (win ≠ el →
         observed (dispatched w') el evt = S (observed (dispatched w) el evt) ∧
         observed (dispatched w') win evt = S (observed (dispatched w) win evt))
    | None =>
        dispatched w' = dispatched w ++ [(el, evt)] ∧
        observed (dispatched w') el evt = S (observed (dispatched w) el evt)
    end.
Proof.
  intros Hown Hview.
  unfold dispatchEvent, default_view in *. cbn.
  unfold owning_document in *.
  destruct (prop (heap w) (VRef el) "ownerDocument") as [| | | | |doc];
    try done; cbn.
  all: match type of Hview with
       | object_or_nullish ?v => destruct v as [| | | | |win]; try done; cbn
       end.
  all: eexists; split; [reflexivity|]; cbn; repeat split; try done.
  all: rewrite <- ?app_assoc; try done.
  all: try intros Hne.
  all: rewrite ?app_assoc, !observed_snoc.
  all: repeat case_decide; congruence.
Qed.

Lemma dispatchEvent_fanout_witness :
  object_or_nullish (prop (heap sample_page) (VRef 1) "ownerDocument") ∧
  object_or_nullish
    (prop (heap sample_page)
       (VRef (owning_document (heap sample_page) 1)) "defaultView") ∧
  ∃ w',
    dispatchEvent sample_page 1 (VRef 4) = Ok w' ∧
    heap w' = heap sample_page ∧ defaultDoc w' = defaultDoc sample_page ∧
    dispatched w' = [(1%positive, VRef 4); (3%positive, VRef 4)] ∧
    (3%positive ≠ 1%positive →
     observed (dispatched w') 1 (VRef 4) = 1%nat ∧
     observed (dispatched w') 3 (VRef 4) = 1%nat).
Proof.
  split; [vm_compute; exact I|]. split; [vm_compute; exact I|].
  apply (dispatchEvent_fanout sample_page 1 (VRef 4)); vm_compute; exact I.
Defined.

(** ** Node classification *)

(** C10. While [DominoAdapter.defaultDoc] is unassigned, that is, before the
    first [getDefaultDocument()], [isTextNode] and [isCommentNode] throw a
    [TypeError] on every argument, for a node the one of reading a constant
    off [undefined].  [getDefaultDocument()] assigns the field once and
    returns the same document from then on; with the field assigned, both
    classifiers return, for every node, the comparison of its [nodeType]
    with the [TEXT_NODE] or [COMMENT_NODE] of that document. *)
Theorem classifiers_need_default_document (w : World) (node : jsval) :
  (defaultDoc w = None →
   (∃ msg, isTextNode w node = Throw (TypeError msg)) ∧
   (∃ msg, isCommentNode w node = Throw (TypeError msg)) ∧
   (node ≠ VUndef → node ≠ VNull →
    isTextNode w node
    = Throw (TypeError "Cannot read property 'TEXT_NODE' of undefined") ∧
    isCommentNode w node
    = Throw (TypeError "Cannot read property 'COMMENT_NODE' of undefined"))) ∧
  (let '(doc, w') := getDefaultDocument w in
   defaultDoc w' = Some doc ∧
   getDefaultDocument w' = (doc, w') ∧
   (node ≠ VUndef → node ≠ VNull →
    isTextNode w' node
    = Ok (strict_eq (prop (heap w') node "nodeType")
            (prop (heap w') (VRef doc) "TEXT_NODE")) ∧
    isCommentNode w' node
    = Ok (strict_eq (prop (heap w') node "nodeType")
            (prop (heap w') (VRef doc) "COMMENT_NODE")))).
Proof.
  split.
  - intros Hnone. unfold isTextNode, isCommentNode, static_defaultDoc.
    rewrite Hnone. destruct node; cbn; eauto.
    all: repeat split; try congruence; eauto.
  - unfold getDefaultDocument.
    destruct (defaultDoc w) as [doc|] eqn:Hdoc; cbn.
    + rewrite Hdoc. split; [done|]. split; [done|].
      intros Hu Hn. unfold isTextNode, isCommentNode, static_defaultDoc.
      rewrite Hdoc. by destruct node.
    + split; [done|]. split; [done|].
      intros Hu Hn. unfold isTextNode, isCommentNode, static_defaultDoc.
      by destruct node.
Qed.

Lemma classifiers_need_default_document_witness :
  defaultDoc sample_page = None ∧ VRef 1 ≠ VUndef ∧ VRef 1 ≠ VNull ∧
  isTextNode sample_page (VRef 1)
  = Throw (TypeError "Cannot read property 'TEXT_NODE' of undefined") ∧
  isCommentNode sample_page (VRef 1)
  = Throw (TypeError "Cannot read property 'COMMENT_NODE' of undefined").
Proof.
  split; [reflexivity|]. split; [discriminate|]. split; [discriminate|].
  destruct (classifiers_need_default_document sample_page (VRef 1)) as [H _].
  destruct (H eq_refl) as (_ & _ & H3). apply H3; discriminate.
Defined.

(** The document made by the first [getDefaultDocument()] carries the DOM
    constants: from then on a text node is a node of type 3 and a comment a
    node of type 8. *)
Lemma first_default_document (w : World) (node : jsval) :
  defaultDoc w = None → node ≠ VUndef → node ≠ VNull →
  let w' := (getDefaultDocument w).2 in
  isTextNode w' node = Ok (strict_eq (prop (heap w') node "nodeType") (VNum 3)) ∧
  isCommentNode w' node
  = Ok (strict_eq (prop (heap w') node "nodeType") (VNum 8)).
Proof.
  intros Hnone Hu Hn. unfold getDefaultDocument. rewrite Hnone. cbn.
  unfold isTextNode, isCommentNode, static_defaultDoc. cbn.
  assert (Hconst : ∀ name,
    prop (<[fresh (dom (heap w)) := new_document]> (heap w))
      (VRef (fresh (dom (heap w)))) name = el_get new_document name).
  { intros name. unfold prop. by rewrite lookup_insert_eq. }
  destruct node; try done; cbn; by rewrite !Hconst.
Qed.

(** [isElementNode] answers false on an absent node instead of reading its
    type. *)
Lemma isElementNode_absent (w : World) :
  isElementNode w VUndef = Ok false ∧ isElementNode w VNull = Ok false.
Proof. done. Qed.

(** ** The style codec: strings *)

Lemma string_length_pos (s : string) :
  (0 <? Z.of_nat (String.length s)) = bool_decide (s ≠ "").
Proof. by destruct s. Qed.

Lemma indexOf_occurs c s : indexOf c s = -1 ↔ occurs c s = false.
Proof.
  induction s as [|d r IH]; cbn; [done|].
  destruct (Ascii.eqb d c); cbn; [done|].
  destruct (Z.eqb_spec (indexOf c r) (-1)) as [E|E].
  - rewrite <- IH. done.
  - rewrite <- IH. split; [|done]. intros H.
    assert (-1 ≤ indexOf c r) by (clear; induction r as [|e r IH]; cbn;
      [lia | destruct (Ascii.eqb e c); [lia|];
             destruct (indexOf c r =? -1); lia]).
    lia.
Qed.

(** ** The style codec: errors *)

(** The loop stops with an error at the first malformed entry. *)
Lemma read_styles_malformed styleList styleMap :
  Exists malformed styleList →
  ∃ segment, segment ∈ styleList ∧ malformed segment ∧
    read_styles styleList styleMap
    = Throw (Error ("Invalid CSS style: " +:+ segment)).
Proof.
  intros Hex. revert styleMap.
  induction styleList as [|style rest IH]; intros styleMap.
  { by apply Exists_nil in Hex. }
  cbn. rewrite string_length_pos.
  destruct (decide (malformed style)) as [Hbad|Hgood].
  - exists style. destruct Hbad as [Hne Hcolon].
    rewrite bool_decide_true by done.
    apply indexOf_occurs in Hcolon as Hidx. rewrite Hidx. cbn.
    split; [left|]. done.
  - apply Exists_cons in Hex as [?|Hex]; [done|].
    assert (Hrest : ∀ m, ∃ segment, segment ∈ style :: rest ∧ malformed segment ∧
              read_styles rest m = Throw (Error ("Invalid CSS style: " +:+ segment))).
    { intros m. destruct (IH Hex m) as (seg & Hin & Hbad & Hthrow).
      exists seg. split; [by right|done]. }
    case_bool_decide as Hne; [|apply Hrest].
    destruct (Z.eqb_spec (indexOf ":" style) (-1)) as [Hidx|Hidx]; [|apply Hrest].
    exfalso. apply Hgood. split; [done|]. by apply indexOf_occurs.
Qed.

Lemma _readStyleAttribute_malformed el styleAttribute :
  el_getAttribute el "style" = Some styleAttribute →
  Exists malformed (split_semicolons styleAttribute) →
  ∃ segment, segment ∈ segments styleAttribute ∧ malformed segment ∧
    _readStyleAttribute el = Throw (Error ("Invalid CSS style: " +:+ segment)).
Proof.
  intros Hattr Hex. unfold _readStyleAttribute. rewrite Hattr.
  destruct styleAttribute as [|c r].
  { apply Exists_cons in Hex as [[? _]|Hex]; [done|by apply Exists_nil in Hex]. }
  cbn [truthy String.eqb negb].
  destruct (read_styles_malformed _ [] Hex) as (seg & Hin & Hbad & Hthrow).
  exists seg. split; [|done].
  unfold segments. apply list_elem_of_filter. split; [apply Hbad|done].
Qed.

(** C3. When the [style] attribute of an element has a non-empty segment
    without a colon, [getStyle], [setStyle], [removeStyle] and [hasStyle] all
    throw, for every style name and value, the error "Invalid CSS style: "
    followed by the text of such a segment (the first one); none of them
    returns. *)
Theorem malformed_style_attribute_throws (el : Element) (styleAttribute : string) :
  el_getAttribute el "style" = Some styleAttribute →
  Exists malformed (split_semicolons styleAttribute) →
  ∃ segment, segment ∈ segments styleAttribute ∧ malformed segment ∧
    ∀ (styleName : string) (styleValue : jsval) (expected : option string),
      let error := Error ("Invalid CSS style: " +:+ segment) in
      getStyle el styleName = Throw error ∧
      setStyle el styleName styleValue = Throw error ∧
      removeStyle el styleName = Throw error ∧
      hasStyle el styleName expected = Throw error.
Proof.
  intros Hattr Hex.
  destruct (_readStyleAttribute_malformed el styleAttribute Hattr Hex)
    as (seg & Hin & Hbad & Hthrow).
  exists seg. split; [done|]. split; [done|].
  intros styleName styleValue expected.
  unfold hasStyle, removeStyle, getStyle, setStyle.
  rewrite Hthrow. done.
Qed.

Lemma malformed_style_attribute_throws_witness :
  el_getAttribute (styled "margin:0;color red") "style"
  = Some "margin:0;color red" ∧
  Exists malformed (split_semicolons "margin:0;color red") ∧
  ∃ segment, segment ∈ segments "margin:0;color red" ∧ malformed segment ∧
    ∀ (styleName : string) (styleValue : jsval) (expected : option string),
      let error := Error ("Invalid CSS style: " +:+ segment) in
      getStyle (styled "margin:0;color red") styleName = Throw error ∧
      setStyle (styled "margin:0;color red") styleName styleValue = Throw error ∧
      removeStyle (styled "margin:0;color red") styleName = Throw error ∧
      hasStyle (styled "margin:0;color red") styleName expected = Throw error.
Proof.
  assert (Hbad : Exists malformed (split_semicolons "margin:0;color red")).
  { apply Exists_cons_tl, Exists_cons_hd. split; [discriminate|reflexivity]. }
  split; [reflexivity|]. split; [exact Hbad|].
  apply (malformed_style_attribute_throws
           (styled "margin:0;color red") "margin:0;color red").
  - reflexivity.
  - exact Hbad.
Defined.

(** ** The style codec: presence test *)

(** C9, as far as it holds.  [hasStyle] throws whatever [getStyle] throws.
    Without a value, and also with the empty string as value, it is true
    exactly when [getStyle] returns a non-empty string; with a non-empty
    value [v] it is true exactly when [getStyle] returns [v]. *)
Theorem hasStyle_spec (el : Element) (styleName : string) :
  (∀ e expected, getStyle el styleName = Throw e →
     hasStyle el styleName expected = Throw e) ∧
  (∀ s, getStyle el styleName = Ok s →
     hasStyle el styleName None = Ok (bool_decide (s ≠ "")) ∧
     hasStyle el styleName (Some "") = Ok (bool_decide (s ≠ "")) ∧
     ∀ v, v ≠ "" → hasStyle el styleName (Some v) = Ok (bool_decide (s = v))) ∧
  (hasStyle el styleName None = Ok true ↔
     ∃ s, getStyle el styleName = Ok s ∧ s ≠ "") ∧
  (∀ v, v ≠ "" →
     hasStyle el styleName (Some v) = Ok true ↔ getStyle el styleName = Ok v).
Proof.
  assert (Hok : ∀ s, getStyle el styleName = Ok s →
     hasStyle el styleName None = Ok (bool_decide (s ≠ "")) ∧
     hasStyle el styleName (Some "") = Ok (bool_decide (s ≠ "")) ∧
     ∀ v, v ≠ "" → hasStyle el styleName (Some v) = Ok (bool_decide (s = v))).
  { intros s Hs. unfold hasStyle. rewrite Hs. cbn.
    assert (Hval : (if negb (String.eqb s "") then s else "") = s).
    { destruct (String.eqb_spec s ""); by subst. }
    rewrite Hval, string_length_pos. repeat split.
    intros v Hv. destruct (String.eqb_spec v ""); [done|]. cbn.
    f_equal. destruct (String.eqb_spec s v).
    - by rewrite bool_decide_true.
    - by rewrite bool_decide_false. }
  split; [|split; [done|split]].
  - intros e expected He. unfold hasStyle. by rewrite He.
  - destruct (getStyle el styleName) as [s|e] eqn:Hs.
    + destruct (Hok s eq_refl) as (-> & _ & _). split.
      * intros [= H]. apply bool_decide_eq_true in H. eauto.
      * intros (s' & [= <-] & Hne). by rewrite bool_decide_true.
    + split.
      * unfold hasStyle. rewrite Hs. done.
      * by intros (s' & [=] & _).
  - intros v Hv. destruct (getStyle el styleName) as [s|e] eqn:Hs.
    + destruct (Hok s eq_refl) as (_ & _ & H). rewrite (H v Hv). split.
      * intros [= Heq]. apply bool_decide_eq_true in Heq. by subst.
      * intros [= ->]. by rewrite bool_decide_true.
    + split; [|done]. unfold hasStyle. rewrite Hs. done.
Qed.

Lemma hasStyle_spec_witness :
  "red" ≠ "" ∧
  (hasStyle (styled "color:red") "color" (Some "red") = Ok true ↔
   getStyle (styled "color:red") "color" = Ok "red").
Proof.
  split; [discriminate|].
  apply (hasStyle_spec (styled "color:red") "color"). discriminate.
Defined.

(** C9 as stated fails for the empty string given as value: an element
    without [color] has [getStyle] equal to that value, and [hasStyle] is
    false. *)
Lemma hasStyle_empty_value_counterexample :
  ¬ (hasStyle (styled "") "color" (Some "") = Ok true ↔
     getStyle (styled "") "color" = Ok "").
Proof. intros [_ H]. specialize (H eq_refl). discriminate H. Qed.

(** ** Containment *)

Lemma contains_loop_more h nodeA fuel fuel' inner r :
  (fuel ≤ fuel')%nat →
  contains_loop h nodeA fuel inner = Some r →
  contains_loop h nodeA fuel' inner = Some r.
Proof.
  revert fuel' inner. induction fuel as [|fuel IH]; intros fuel' inner Hle; [done|].
  destruct fuel' as [|fuel']; [lia|]. cbn.
  destruct (truthy inner); [|done].
  destruct (strict_eq inner nodeA); [done|].
  apply IH. lia.
Qed.

(** Off the node graph the walk ends within two more tests. *)
Lemma contains_loop_off_graph h a fuel inner :
  (∀ l, inner ≠ VRef l) → (2 ≤ fuel)%nat →
  contains_loop h (VRef a) fuel inner = Some false.
Proof.
  intros Hprim Hfuel.
  destruct fuel as [|[|fuel]]; [lia..|].
  destruct inner; cbn; try done.
  - by destruct b.
  - by destruct (n =? 0).
  - by destruct (String.eqb s "").
  - by destruct (Hprim l).
Qed.

Lemma contains_loop_walk h depth a :
  upward h depth →
  ∀ fuel b, (depth b + 3 ≤ fuel)%nat →
    (∃ r, contains_loop h (VRef a) fuel (VRef b) = Some r) ∧
    (contains_loop h (VRef a) fuel (VRef b) = Some true ↔ rtc (parent_link h) b a).
Proof.
  intros Hup fuel. induction fuel as [|fuel IH]; intros b Hfuel; [lia|].
  cbn. unfold strict_eq. case_bool_decide as Heq.
  { injection Heq as ->. split; [eauto|]. split; [|done]. by intros _. }
  assert (Hba : b ≠ a) by congruence.
  destruct (prop h (VRef b) "parent") as [| | | | |p] eqn:Hparent.
  6: {
    assert (Hlink : parent_link h b p) by done.
    specialize (Hup _ _ Hlink).
    destruct (IH p ltac:(lia)) as [Htotal Hiff]. split; [done|].
    rewrite Hiff. split.
    - intros Hrtc. by eapply rtc_l.
    - intros Hrtc. destruct Hrtc as [|b p' a Hstep Hrest]; [done|].
      unfold parent_link in Hstep. congruence. }
  all: rewrite contains_loop_off_graph by (done || lia).
  all: split; [eauto|]; split; [done|].
  all: intros Hrtc; destruct Hrtc as [|b p' a Hstep Hrest]; [done|].
  all: unfold parent_link in Hstep; congruence.
Qed.

(** C1, as far as it holds.  In a tree, once the loop is given enough
    turns, [contains(a, b)] returns, and it returns true exactly when [a] is
    [b] itself or is reached from [b] by following [parent]; in particular
    [contains(a, a)] is true for every node. *)
Theorem contains_spec (h : Heap) (depth : loc → nat) (a b : loc) (fuel : nat) :
  upward h depth →
  (depth b + 3 ≤ fuel)%nat →
  (∃ r, contains h fuel (VRef a) (VRef b) = Some r) ∧
  (contains h fuel (VRef a) (VRef b) = Some true ↔ rtc (parent_link h) b a) ∧
  (contains h fuel (VRef a) (VRef b) = Some false ↔ ¬ rtc (parent_link h) b a) ∧
  contains h fuel (VRef b) (VRef b) = Some true.
Proof.
  intros Hup Hfuel. unfold contains.
  destruct (contains_loop_walk h depth a Hup fuel b Hfuel) as [[r Hr] Hiff].
  split; [eauto|]. split; [done|]. split.
  - rewrite <- Hiff, Hr. destruct r; split; congruence.
  - apply (contains_loop_walk h depth b Hup fuel b Hfuel). done.
Qed.

Lemma contains_spec_witness :
  upward (heap sample_page) sample_depth ∧
  (sample_depth 1 + 3 ≤ 4)%nat ∧
  (∃ r, contains (heap sample_page) 4 (VRef 2) (VRef 1) = Some r) ∧
  (contains (heap sample_page) 4 (VRef 2) (VRef 1) = Some true ↔
     rtc (parent_link (heap sample_page)) 1%positive 2%positive) ∧
  (contains (heap sample_page) 4 (VRef 2) (VRef 1) = Some false ↔
     ¬ rtc (parent_link (heap sample_page)) 1%positive 2%positive) ∧
  contains (heap sample_page) 4 (VRef 1) (VRef 1) = Some true.
Proof.
  assert (Hup : upward (heap sample_page) sample_depth).
  { intros c p Hlink. unfold parent_link, prop, sample_page in Hlink.
    cbn in Hlink. rewrite !lookup_insert in Hlink.
    repeat case_decide; subst; try done.
    vm_compute in Hlink. injection Hlink as <-. vm_compute. lia. }
  assert (Hfuel : (sample_depth 1 + 3 ≤ 4)%nat) by (vm_compute; lia).
  split; [exact Hup|]. split; [exact Hfuel|].
  apply (contains_spec (heap sample_page) sample_depth 2 1 4 Hup Hfuel).
Defined.

(** C1 as stated fails on any node taken twice: the walk starts at [b]
    itself, so a detached node contains itself although it is not among its
    own ancestors. *)
Lemma contains_self_counterexample :
  ¬ (contains lone_node 4 (VRef 1) (VRef 1) = Some true ↔
     tc (parent_link lone_node) 1%positive 1%positive).
Proof.
  intros [H _]. specialize (H eq_refl).
  assert (Hno : ∀ p, ¬ parent_link lone_node 1%positive p).
  { intros p Hp. vm_compute in Hp. discriminate Hp. }
  inversion H as [? ? Hp|? ? ? Hp _]; subst; exact (Hno _ Hp).
Qed.

(** ** The style codec: more on strings *)

Lemma append_cons c s t : String c s +:+ t = String c (s +:+ t).
Proof. reflexivity. Qed.

Lemma append_empty t : "" +:+ t = t.
Proof. reflexivity. Qed.

Lemma append_assoc s t u : (s +:+ t) +:+ u = s +:+ (t +:+ u).
Proof. induction s as [|c s IH]; [done|]. rewrite !append_cons. by f_equal. Qed.

Lemma occurs_app c s t : occurs c (s +:+ t) = occurs c s || occurs c t.
Proof.
  induction s as [|d s IH]; [done|]. rewrite append_cons. cbn.
  rewrite IH. by destruct (Ascii.eqb d c).
Qed.

Lemma trim_start_clean s : starts_clean (trim_start s).
Proof.
  induction s as [|c r IH]; [done|]. cbn.
  destruct (is_white_space c) eqn:E; [done|]. exact E.
Qed.

Lemma trim_start_id s : starts_clean s → trim_start s = s.
Proof. destruct s as [|c r]; [done|]. cbn. by intros ->. Qed.

Lemma trim_end_clean s : starts_clean s → starts_clean (trim_end s).
Proof.
  destruct s as [|c r]; [done|]. cbn. intros Hc.
  destruct (trim_end r); [by rewrite Hc|done].
Qed.

Lemma trim_end_idem s : trim_end (trim_end s) = trim_end s.
Proof.
  induction s as [|c r IH]; [done|]. cbn.
  destruct (trim_end r) as [|d t] eqn:E.
  - destruct (is_white_space c) eqn:Hc; [done|]. cbn. by rewrite Hc.
  - change (trim_end (String c (String d t)))
      with (match trim_end (String d t) with
            | EmptyString =>
                if is_white_space c then EmptyString else String c EmptyString
            | r' => String c r'
            end).
    by rewrite IH.
Qed.

Lemma trim_idem s : trim (trim s) = trim s.
Proof.
  unfold trim.
  rewrite (trim_start_id (trim_end _)) by apply trim_end_clean, trim_start_clean.
  apply trim_end_idem.
Qed.

Lemma occurs_trim_start c s : occurs c s = false → occurs c (trim_start s) = false.
Proof.
  induction s as [|d r IH]; [done|]. cbn.
  destruct (is_white_space d); [|done].
  intros [_ H]%orb_false_iff. auto.
Qed.

Lemma occurs_trim_end c s : occurs c s = false → occurs c (trim_end s) = false.
Proof.
  induction s as [|d r IH]; [done|]. cbn.
  intros [Hd Hr]%orb_false_iff. specialize (IH Hr).
  destruct (trim_end r) as [|e t].
  - destruct (is_white_space d); [done|]. cbn. by rewrite Hd.
  - cbn in *. by rewrite Hd.
Qed.

Lemma occurs_trim c s : occurs c s = false → occurs c (trim s) = false.
Proof. intros. by apply occurs_trim_end, occurs_trim_start. Qed.

Lemma occurs_before_self c s : occurs c (before c s) = false.
Proof.
  induction s as [|d r IH]; [done|]. cbn.
  destruct (Ascii.eqb d c) eqn:E; [done|]. cbn. by rewrite E.
Qed.

Lemma occurs_before c d s : occurs d s = false → occurs d (before c s) = false.
Proof.
  induction s as [|e r IH]; [done|]. cbn.
  intros [He Hr]%orb_false_iff.
  destruct (Ascii.eqb e c); [done|]. cbn. rewrite He. auto.
Qed.

Lemma occurs_after c d s : occurs d s = false → occurs d (after c s) = false.
Proof.
  induction s as [|e r IH]; [done|]. cbn.
  intros [He Hr]%orb_false_iff.
  destruct (Ascii.eqb e c); auto.
Qed.

Lemma before_app c k v : occurs c k = false → before c (k +:+ String c v) = k.
Proof.
  induction k as [|d k IH]; cbn.
  - intros _. rewrite append_empty. cbn. by rewrite Ascii.eqb_refl.
  - intros [Hd Hk]%orb_false_iff. rewrite append_cons. cbn. rewrite Hd.
    by rewrite IH.
Qed.

Lemma after_app c k v : occurs c k = false → after c (k +:+ String c v) = v.
Proof.
  induction k as [|d k IH]; cbn.
  - intros _. rewrite append_empty. cbn. by rewrite Ascii.eqb_refl.
  - intros [Hd Hk]%orb_false_iff. rewrite append_cons. cbn. rewrite Hd. auto.
Qed.

Lemma indexOf_bounds c s :
  occurs c s = true → 0 ≤ indexOf c s < Z.of_nat (String.length s).
Proof.
  induction s as [|d r IH]; [done|]. cbn [occurs indexOf String.length].
  destruct (Ascii.eqb d c); cbn [orb]; [lia|].
  intros Hr. specialize (IH Hr).
  destruct (Z.eqb_spec (indexOf c r) (-1)); lia.
Qed.

Lemma substring_all s : String.substring 0 (String.length s) s = s.
Proof. induction s as [|c s IH]; [done|]. cbn. by rewrite IH. Qed.

Lemma substring_before c s :
  occurs c s = true →
  String.substring 0 (Z.to_nat (indexOf c s)) s = before c s.
Proof.
  induction s as [|d r IH]; [done|]. cbn [occurs indexOf before].
  destruct (Ascii.eqb d c); cbn [orb]; [done|].
  intros Hr. pose proof (indexOf_bounds c r Hr) as Hb.
  destruct (Z.eqb_spec (indexOf c r) (-1)); [lia|].
  replace (Z.to_nat (indexOf c r + 1)) with (S (Z.to_nat (indexOf c r))) by lia.
  cbn. by rewrite IH.
Qed.

Lemma substring_after c s :
  occurs c s = true →
  String.substring (Z.to_nat (indexOf c s + 1))
    (String.length s - Z.to_nat (indexOf c s + 1)) s = after c s.
Proof.
  induction s as [|d r IH]; [done|]. cbn [occurs indexOf after String.length].
  destruct (Ascii.eqb d c); cbn [orb].
  - intros _. change (Z.to_nat (0 + 1)) with 1%nat.
    replace (S (String.length r) - 1)%nat with (String.length r) by lia.
    apply substring_all.
  - intros Hr. pose proof (indexOf_bounds c r Hr) as Hb.
    destruct (Z.eqb_spec (indexOf c r) (-1)); [lia|].
    replace (Z.to_nat (indexOf c r + 1 + 1))
      with (S (Z.to_nat (indexOf c r + 1))) by lia.
    replace (S (String.length r) - S (Z.to_nat (indexOf c r + 1)))%nat
      with (String.length r - Z.to_nat (indexOf c r + 1))%nat by lia.
    exact (IH Hr).
Qed.

(** The two calls of [substr] in the parser cut the segment at its first
    colon. *)
Lemma substr_before c s :
  occurs c s = true → substr s 0 (Some (indexOf c s)) = before c s.
Proof.
  intros Hc. pose proof (indexOf_bounds c s Hc) as Hb. unfold substr. cbn.
  rewrite <- substring_before by done. f_equal; lia.
Qed.

Lemma substr_after c s :
  occurs c s = true → substr s (indexOf c s + 1) None = after c s.
Proof.
  intros Hc. pose proof (indexOf_bounds c s Hc) as Hb. unfold substr.
  destruct (Z.ltb_spec (indexOf c s + 1) 0); [lia|].
  rewrite <- substring_after by done. f_equal; lia.
Qed.

(** ** The style codec: parsing *)

Lemma split_go_no_semicolon in_run s :
  Forall (fun piece => occurs ";" piece = false) (split_go in_run s).
Proof.
  revert in_run. induction s as [|c r IH]; intros in_run; cbn.
  { by repeat constructor. }
  unfold is_semicolon. destruct (Ascii.eqb c ";") eqn:Hc.
  - destruct in_run; [apply IH|]. constructor; [done|apply IH].
  - specialize (IH false). destruct (split_go false r) as [|piece pieces].
    + repeat constructor. cbn. by rewrite Hc.
    + apply Forall_cons in IH as [Hp Hps]. constructor; [|done].
      cbn. by rewrite Hc.
Qed.

Lemma segments_spec styleAttribute segment :
  segment ∈ segments styleAttribute →
  segment ∈ split_semicolons styleAttribute ∧
  segment ≠ "" ∧ occurs ";" segment = false.
Proof.
  unfold segments. intros [Hne Hin]%list_elem_of_filter.
  split; [done|]. split; [done|].
  by eapply (proj1 (Forall_forall _ _) (split_go_no_semicolon false _)).
Qed.

(** On entries that are empty or have a colon the loop assigns, for each
    non-empty one, the trimmed text before its first colon to the trimmed
    text after it. *)
Lemma read_styles_assign styleList styleMap :
  Forall (fun style => style = "" ∨ occurs ":" style = true) styleList →
  read_styles styleList styleMap
  = Ok (foldl (assign_entry parsed_entry) styleMap
          (filter (fun style => style ≠ "") styleList)).
Proof.
  revert styleMap. induction styleList as [|style rest IH];
    intros styleMap Hall; [done|].
  apply Forall_cons in Hall as [Hstyle Hrest].
  cbn [read_styles]. rewrite string_length_pos, filter_cons.
  destruct (decide (style ≠ "")) as [Hne|Hempty].
  - rewrite bool_decide_true by done.
    destruct Hstyle as [?|Hcolon]; [done|].
    pose proof (indexOf_bounds _ _ Hcolon) as Hb.
    destruct (Z.eqb_spec (indexOf ":" style) (-1)); [lia|].
    rewrite substr_before, substr_after by done.
    rewrite IH by done. done.
  - rewrite bool_decide_false by done. by apply IH.
Qed.

Lemma _readStyleAttribute_well_formed el :
  well_formed (style_text el) →
  _readStyleAttribute el = Ok (parse_with parsed_entry (style_text el)).
Proof.
  unfold well_formed, style_text, _readStyleAttribute, parse_with.
  destruct (el_getAttribute el "style") as [[|c r]|]; cbn [default]; [done| |done].
  intros Hall. cbn [truthy String.eqb negb].
  apply read_styles_assign. apply Forall_forall. intros seg Hin.
  destruct (decide (seg = "")) as [|Hne]; [by left|right].
  apply (proj1 (Forall_forall _ _) Hall). unfold segments.
  by apply list_elem_of_filter.
Qed.

(** An attribute is either well formed or has a malformed segment. *)
Lemma not_well_formed_malformed styleAttribute :
  ¬ well_formed styleAttribute →
  Exists malformed (split_semicolons styleAttribute).
Proof.
  intros Hnot. apply not_Forall_Exists in Hnot; [|apply _].
  apply Exists_exists in Hnot as (seg & Hin & Hcolon).
  apply Exists_exists. exists seg.
  apply segments_spec in Hin as (Hin & Hne & _).
  split; [done|]. split; [done|].
  destruct (occurs ":" seg) eqn:Hocc; [|done]. exfalso. by apply Hcolon.
Qed.

(** The parser returns exactly on the well-formed attributes. *)
Lemma _readStyleAttribute_returns el :
  (∃ styleMap, _readStyleAttribute el = Ok styleMap) ↔
  well_formed (style_text el).
Proof.
  split; [|intros Hwf; eexists; by apply _readStyleAttribute_well_formed].
  intros [styleMap Hread].
  destruct (decide (well_formed (style_text el))) as [|Hnot]; [done|].
  exfalso. unfold style_text in Hnot.
  destruct (el_getAttribute el "style") as [styleAttribute|] eqn:Hattr.
  - apply not_well_formed_malformed in Hnot.
    destruct (_readStyleAttribute_malformed el _ Hattr Hnot)
      as (seg & _ & _ & Hthrow).
    congruence.
  - apply Hnot. constructor.
Qed.

(** C4, as far as it holds.  When every non-empty segment of the [style]
    attribute has a colon, [_readStyleAttribute] returns the object obtained
    by splitting the attribute at each run of semicolons, skipping the empty
    segments and assigning, for each remaining segment in order, the text
    before its first colon, trimmed at both ends, to the text after that
    colon, trimmed at both ends.  An absent or empty attribute gives the
    empty object. *)
Theorem _readStyleAttribute_parses (el : Element) :
  well_formed (style_text el) →
  _readStyleAttribute el = Ok (parse_with parsed_entry (style_text el)) ∧
  (∀ segment, segment ∈ segments (style_text el) →
     segment ∈ split_semicolons (style_text el) ∧
     segment ≠ "" ∧ occurs ";" segment = false).
Proof.
  intros Hall. split; [by apply _readStyleAttribute_well_formed|].
  intros segment. apply segments_spec.
Qed.

Lemma _readStyleAttribute_parses_witness :
  well_formed (style_text (styled " color : red ;; background:url(a:b) ;")) ∧
  _readStyleAttribute (styled " color : red ;; background:url(a:b) ;")
  = Ok [("color", "red"); ("background", "url(a:b)")].
Proof.
  assert (Hwf : well_formed
            (style_text (styled " color : red ;; background:url(a:b) ;"))).
  { vm_compute. repeat constructor. }
  split; [exact Hwf|].
  apply (_readStyleAttribute_parses
           (styled " color : red ;; background:url(a:b) ;") Hwf).
Defined.

(** C4 as stated fails on white space before the colon: the key is trimmed
    at both ends, not only on the left. *)
Lemma left_trimmed_key_counterexample :
  _readStyleAttribute (styled "color :red") = Ok [("color", "red")] ∧
  parse_with stated_entry "color :red" = [("color ", "red")] ∧
  _readStyleAttribute (styled "color :red")
  ≠ Ok (parse_with stated_entry (style_text (styled "color :red"))).
Proof. split; [done|]. split; [done|]. discriminate. Qed.

(** ** Plain objects *)

Section plain_objects.
Context {V : Type}.
Implicit Types (o : PlainObject V) (k : string) (v : V).

Lemma get_own_None o k : get_own o k = None ↔ k ∉ o.*1.
Proof.
  induction o as [|[k' v'] o IH]; cbn.
  - split; [intros _; apply not_elem_of_nil|done].
  - rewrite not_elem_of_cons. destruct (String.eqb_spec k' k) as [->|Hne].
    + split; [done|]. by intros [? _].
    + rewrite IH. split; [|by intros [_ ?]]. intros ?. split; [congruence|done].
Qed.

Lemma get_own_elem_of o k v : get_own o k = Some v → (k, v) ∈ o.
Proof.
  induction o as [|[k' v'] o IH]; cbn; [done|].
  destruct (String.eqb_spec k' k) as [->|Hne].
  - intros [= ->]. left.
  - intros H. right. auto.
Qed.

Lemma has_own_get_own o k : has_own o k = bool_decide (is_Some (get_own o k)).
Proof.
  unfold has_own. apply bool_decide_ext.
  rewrite <- not_eq_None_Some, get_own_None.
  split; [by intros ? ?|]. intros H. by destruct (decide (k ∈ o.*1)).
Qed.

Lemma put_own_keys o k v :
  (put_own o k v).*1 = if decide (k ∈ o.*1) then o.*1 else o.*1 ++ [k].
Proof.
  induction o as [|[k' v'] o IH]; cbn.
  - rewrite decide_False by apply not_elem_of_nil. done.
  - destruct (String.eqb_spec k' k) as [->|Hne]; cbn.
    + rewrite decide_True by left. done.
    + rewrite IH. destruct (decide (k ∈ o.*1)) as [Hin|Hin].
      * rewrite decide_True by by right. done.
      * rewrite decide_False; [done|].
        rewrite not_elem_of_cons. split; [congruence|done].
Qed.

Lemma put_own_fresh o k v : k ∉ o.*1 → put_own o k v = o ++ [(k, v)].
Proof.
  induction o as [|[k' v'] o IH]; cbn; [done|].
  rewrite not_elem_of_cons. intros [Hne Hin].
  destruct (String.eqb_spec k' k) as [->|_]; [done|]. by rewrite IH.
Qed.

Lemma put_own_NoDup o k v : NoDup o.*1 → NoDup (put_own o k v).*1.
Proof.
  intros Hnd. rewrite put_own_keys. case_decide; [done|].
  apply NoDup_app. split; [done|]. split; [|apply NoDup_singleton].
  intros x Hx ->%list_elem_of_singleton. done.
Qed.

Lemma put_own_Forall (P : string * V → Prop) o k v :
  Forall P o → P (k, v) → Forall P (put_own o k v).
Proof.
  intros Ho Hkv. induction Ho as [|[k' v'] o Hhd Htl IH]; cbn.
  - by repeat constructor.
  - destruct (String.eqb_spec k' k) as [->|_]; constructor; done.
Qed.

Lemma get_own_put_own o k v k' :
  get_own (put_own o k v) k' = if decide (k = k') then Some v else get_own o k'.
Proof.
  induction o as [|[k0 v0] o IH]; cbn.
  - destruct (String.eqb_spec k k') as [->|Hne].
    + by rewrite decide_True.
    + by rewrite decide_False.
  - destruct (String.eqb_spec k0 k) as [->|Hne]; cbn.
    + destruct (String.eqb_spec k k') as [->|Hne'].
      * by rewrite decide_True.
      * by rewrite decide_False.
    + rewrite IH. destruct (String.eqb_spec k0 k') as [->|Hne'].
      * by rewrite decide_False.
      * done.
Qed.

(** Looking a key up among entries computed from a duplicate-free list of
    keys. *)
Lemma get_own_omap {W} (f : string → option (string * W)) (keys : list string) k :
  (∀ k' e, f k' = Some e → e.1 = k') →
  get_own (omap f keys) k = if decide (k ∈ keys) then snd <$> f k else None.
Proof.
  intros Hf. induction keys as [|k' keys IH]; cbn.
  { rewrite decide_False by apply not_elem_of_nil. done. }
  destruct (f k') as [[k1 w]|] eqn:Hfk'; cbn.
  - apply Hf in Hfk' as Hk1. cbn in Hk1. subst k1.
    destruct (String.eqb_spec k' k) as [->|Hne].
    + rewrite decide_True by left. by rewrite Hfk'.
    + rewrite IH. destruct (decide (k ∈ keys)).
      * rewrite decide_True by by right. done.
      * rewrite decide_False; [done|]. rewrite not_elem_of_cons. done.
  - rewrite IH. destruct (decide (k = k')) as [->|Hne].
    + rewrite Hfk'. cbn. by repeat case_decide.
    + destruct (decide (k ∈ keys)).
      * rewrite decide_True by by right. done.
      * rewrite decide_False; [done|]. rewrite not_elem_of_cons. done.
Qed.
End plain_objects.

(** ** The style codec: writing *)

(** [for ... in] visits every own key, once. *)
Lemma forin_keys_Permutation {V} (o : PlainObject V) : forin_keys o ≡ₚ o.*1.
Proof.
  unfold forin_keys. rewrite merge_sort_Permutation.
  induction (o.*1) as [|k keys IH]; [done|]. cbn.
  unfold index_entry at 1.
  destruct (array_index k) as [n|]; cbn; case_decide; try done.
  - by rewrite IH.
  - rewrite <- Permutation_middle. by rewrite IH.
Qed.

Lemma elem_of_forin_keys {V} (o : PlainObject V) k : k ∈ forin_keys o ↔ k ∈ o.*1.
Proof. by rewrite forin_keys_Permutation. Qed.

Lemma written_entry_key styleMap key e :
  written_entry styleMap key = Some e → e.1 = key.
Proof.
  unfold written_entry. destruct (get_own styleMap key) as [v|]; [|done].
  destruct (truthy v); [|done]. by intros [= <-].
Qed.

Lemma write_style_fold styleMap keys acc :
  foldl (write_style styleMap) acc keys
  = acc +:+ emit (omap (written_entry styleMap) keys).
Proof.
  revert acc. induction keys as [|key keys IH]; intros acc; cbn.
  { induction acc as [|c acc IHacc]; [done|]. rewrite append_cons. by f_equal. }
  rewrite IH. unfold write_style, written_entry.
  destruct (get_own styleMap key) as [v|]; cbn; [|done].
  destruct (truthy v); cbn; [|done].
  by rewrite !append_assoc.
Qed.

(** The attribute written is the concatenation of [key:value;] over the
    written entries. *)
Lemma _writeStyleAttribute_emit el styleMap :
  el_getAttribute (_writeStyleAttribute el styleMap) "style"
  = Some (emit (written_entries styleMap)).
Proof.
  unfold _writeStyleAttribute. rewrite el_getAttribute_set.
  by rewrite write_style_fold.
Qed.

Lemma get_own_written_entries styleMap key :
  get_own (written_entries styleMap) key = snd <$> written_entry styleMap key.
Proof.
  unfold written_entries.
  rewrite get_own_omap by apply written_entry_key.
  case_decide as Hin; [done|].
  rewrite elem_of_forin_keys, <- get_own_None in Hin.
  unfold written_entry. by rewrite Hin.
Qed.

Lemma omap_keys_NoDup {W} (f : string → option (string * W)) keys :
  (∀ k e, f k = Some e → e.1 = k) → NoDup keys → NoDup (omap f keys).*1.
Proof.
  intros Hf. induction 1 as [|k keys Hk Hnd IH]; cbn; [constructor|].
  destruct (f k) as [e|] eqn:Hfk; [|done]. cbn.
  apply Hf in Hfk as Hkey. rewrite Hkey. constructor; [|done].
  intros Hin. apply Hk. apply list_elem_of_fmap in Hin as (e' & -> & Hin).
  apply list_elem_of_omap in Hin as (k' & Hin & Hfk').
  apply Hf in Hfk'. by subst.
Qed.

Lemma written_entries_plain styleMap :
  plain_any_map styleMap → plain_map (written_entries styleMap).
Proof.
  intros [Hnd Hall]. split.
  - apply omap_keys_NoDup; [apply written_entry_key|].
    by rewrite forin_keys_Permutation.
  - apply Forall_forall. intros [k s] Hin.
    apply list_elem_of_omap in Hin as (k' & _ & Hw).
    unfold written_entry in Hw.
    destruct (get_own styleMap k') as [v|] eqn:Hget; [|done].
    destruct (truthy v) eqn:Htruthy; [|done]. injection Hw as -> <-.
    apply get_own_elem_of in Hget.
    apply (proj1 (Forall_forall _ _) Hall) in Hget as [Hname Hvalue].
    cbn in *. split; [done|]. by destruct v.
Qed.

(** ** The style codec: reading back what was written *)

Lemma split_go_piece piece rest :
  occurs ";" piece = false →
  split_go false (piece +:+ String ";" rest) = piece :: split_go true rest.
Proof.
  induction piece as [|c piece IH]; [done|].
  cbn [occurs]. intros [Hc Hp]%orb_false_iff.
  rewrite append_cons. cbn [split_go]. unfold is_semicolon. rewrite Hc.
  by rewrite IH.
Qed.

Lemma split_go_body in_run e rest :
  occurs ";" (body e) = false →
  split_go in_run (body e +:+ String ";" rest) = body e :: split_go true rest.
Proof.
  intros Hbody. rewrite <- split_go_piece by done.
  destruct in_run; [|done].
  unfold body in *. destruct (e.1) as [|c k]; [done|].
  rewrite !append_cons in *. cbn in Hbody. apply orb_false_iff in Hbody as [Hc _].
  cbn [split_go]. unfold is_semicolon. by rewrite Hc.
Qed.

Lemma emit_cons e entries :
  emit (e :: entries) = body e +:+ String ";" (emit entries).
Proof.
  unfold body.
  change (emit (e :: entries))
    with (e.1 +:+ ":" +:+ e.2 +:+ ";" +:+ emit entries).
  rewrite append_assoc. reflexivity.
Qed.

Lemma body_plain e :
  plain_name e.1 → plain_text e.2 →
  occurs ";" (body e) = false ∧ occurs ":" (body e) = true ∧ body e ≠ "" ∧
  parsed_entry (body e) = e.
Proof.
  intros (Htrim & Hcolon & Hsemi & _) [Htrim' Hsemi']. unfold body.
  repeat split.
  - rewrite occurs_app. cbn. by rewrite Hsemi, Hsemi'.
  - rewrite occurs_app. cbn. apply orb_true_r.
  - by destruct (e.1).
  - unfold parsed_entry. rewrite before_app, after_app by done.
    rewrite Htrim, Htrim'. by destruct e.
Qed.

Lemma split_emit in_run entries :
  Forall (fun e => plain_name e.1 ∧ plain_text e.2) entries →
  split_go in_run (emit entries) = (body <$> entries) ++ [""].
Proof.
  intros Hall. revert in_run.
  induction Hall as [|e entries [Hname Htext] _ IH]; intros in_run; [done|].
  rewrite emit_cons, split_go_body by by apply body_plain.
  by rewrite IH.
Qed.

Lemma assign_bodies styleMap entries :
  NoDup (styleMap.*1 ++ entries.*1) →
  Forall (fun e => plain_name e.1 ∧ plain_text e.2) entries →
  foldl (assign_entry parsed_entry) styleMap (body <$> entries)
  = styleMap ++ entries.
Proof.
  intros Hnd Hall. revert styleMap Hnd.
  induction Hall as [|e entries [Hname Htext] _ IH]; intros styleMap Hnd; cbn.
  { by rewrite app_nil_r. }
  unfold assign_entry at 2.
  destruct (body_plain e Hname Htext) as (_ & _ & _ & ->).
  unfold obj_set. destruct Hname as (_ & _ & _ & Hproto).
  destruct (String.eqb_spec e.1 "__proto__"); [done|].
  apply NoDup_app in Hnd as Hparts. destruct Hparts as (Hm & Hdisj & He).
  rewrite put_own_fresh.
  2: { intros Hin. apply (Hdisj _ Hin). left. }
  rewrite IH.
  - rewrite <- app_assoc. by destruct e.
  - rewrite fmap_app, <- app_assoc. done.
Qed.

Lemma filter_bodies entries :
  Forall (fun e => plain_name e.1 ∧ plain_text e.2) entries →
  filter (fun style => style ≠ "") ((body <$> entries) ++ [""])
  = body <$> entries.
Proof.
  induction 1 as [|e entries [Hname Htext] _ IH]; [done|].
  rewrite fmap_cons, <- app_comm_cons.
  rewrite filter_cons_True by by apply body_plain. by rewrite IH.
Qed.

(** Reading an attribute made of written entries gives these entries
    back. *)
Lemma _readStyleAttribute_emit el entries :
  plain_map entries →
  el_getAttribute el "style" = Some (emit entries) →
  _readStyleAttribute el = Ok entries.
Proof.
  intros [Hnd Hall] Hattr. unfold _readStyleAttribute. rewrite Hattr.
  destruct entries as [|e entries]; [done|].
  assert (Htruthy : truthy (VStr (emit (e :: entries))) = true).
  { rewrite emit_cons. unfold body. by destruct (e.1). }
  rewrite Htruthy. unfold split_semicolons. rewrite split_emit by done.
  rewrite read_styles_assign.
  - by rewrite filter_bodies, assign_bodies.
  - apply Forall_app. split; [|by repeat constructor; left].
    apply Forall_fmap, (Forall_impl _ _ _ Hall). intros e' [Hn Ht]. cbn.
    right. by apply body_plain.
Qed.

(** ** The style codec: what parsing produces *)

Lemma get_own_obj_set {V} (o : PlainObject V) k v k' :
  get_own (obj_set o k v) k'
  = if decide (k = "__proto__") then get_own o k'
    else if decide (k = k') then Some v else get_own o k'.
Proof.
  unfold obj_set. destruct (String.eqb_spec k "__proto__").
  - by rewrite decide_True.
  - rewrite decide_False by done. apply get_own_put_own.
Qed.

(** Assignment keeps the keys distinct and plain. *)
Lemma obj_set_plain {V} (Q : V → Prop) (o : PlainObject V) k v :
  NoDup o.*1 ∧ Forall (fun e => plain_name e.1 ∧ Q e.2) o →
  (k ≠ "__proto__" → plain_name k ∧ Q v) →
  NoDup (obj_set o k v).*1 ∧
  Forall (fun e => plain_name e.1 ∧ Q e.2) (obj_set o k v).
Proof.
  intros [Hnd Hall] Hkv. unfold obj_set.
  destruct (String.eqb_spec k "__proto__"); [done|]. split.
  - by apply put_own_NoDup.
  - apply put_own_Forall; [done|]. by apply Hkv.
Qed.

Lemma parsed_entry_plain segment :
  occurs ";" segment = false →
  (parsed_entry segment).1 ≠ "__proto__" →
  plain_name (parsed_entry segment).1 ∧ plain_text (parsed_entry segment).2.
Proof.
  intros Hsemi Hproto. unfold parsed_entry in *. cbn in *. repeat split.
  - apply trim_idem.
  - apply occurs_trim, occurs_before_self.
  - by apply occurs_trim, occurs_before.
  - done.
  - apply trim_idem.
  - by apply occurs_trim, occurs_after.
Qed.

Lemma read_styles_plain styleList styleMap styleMap' :
  Forall (fun style => occurs ";" style = false) styleList →
  plain_map styleMap →
  read_styles styleList styleMap = Ok styleMap' →
  plain_map styleMap'.
Proof.
  intros Hall. revert styleMap.
  induction Hall as [|style rest Hsemi _ IH]; intros styleMap Hplain; cbn.
  { by intros [= <-]. }
  destruct (0 <? Z.of_nat (String.length style)); [|by apply IH].
  destruct (Z.eqb_spec (indexOf ":" style) (-1)) as [|Hidx]; [done|].
  assert (Hcolon : occurs ":" style = true).
  { destruct (occurs ":" style) eqn:E; [done|]. by apply indexOf_occurs in E. }
  rewrite substr_before, substr_after by done.
  apply IH. apply (obj_set_plain plain_text); [done|].
  by apply parsed_entry_plain.
Qed.

Lemma _readStyleAttribute_plain el styleMap :
  _readStyleAttribute el = Ok styleMap → plain_map styleMap.
Proof.
  assert (Hempty : plain_map []) by (split; constructor).
  unfold _readStyleAttribute.
  destruct (el_getAttribute el "style") as [styleAttribute|];
    [|by intros [= <-]].
  destruct (truthy (VStr styleAttribute)); [|by intros [= <-]].
  apply read_styles_plain; [|done]. apply split_go_no_semicolon.
Qed.

Lemma as_any_keys styleMap : (as_any styleMap).*1 = styleMap.*1.
Proof.
  unfold as_any. induction styleMap as [|[k v] m IH]; [done|].
  cbn. by f_equal.
Qed.

Lemma get_own_as_any styleMap k :
  get_own (as_any styleMap) k = VStr <$> get_own styleMap k.
Proof.
  unfold as_any. induction styleMap as [|[k' v] m IH]; [done|].
  cbn. by destruct (String.eqb k' k).
Qed.

Lemma as_any_plain styleMap : plain_map styleMap → plain_any_map (as_any styleMap).
Proof.
  intros [Hnd Hall]. split; [by rewrite as_any_keys|].
  unfold as_any. apply Forall_fmap, (Forall_impl _ _ _ Hall).
  by intros [k v].
Qed.

(** ** The style codec: writing, then reading *)

Lemma getStyle_read el styleMap styleName :
  _readStyleAttribute el = Ok styleMap →
  get_own styleMap "hasOwnProperty" = None →
  getStyle el styleName = Ok (default "" (get_own styleMap styleName)).
Proof.
  intros Hread Hmethod. unfold getStyle, call_hasOwnProperty.
  rewrite Hread. cbn. rewrite Hmethod. cbn.
  rewrite has_own_get_own. destruct (get_own styleMap styleName).
  - by rewrite bool_decide_true.
  - rewrite bool_decide_false; [done|]. by intros [? ?].
Qed.

Lemma getStyle_Ok el styleName s :
  getStyle el styleName = Ok s →
  ∃ styleMap, _readStyleAttribute el = Ok styleMap ∧
    get_own styleMap "hasOwnProperty" = None.
Proof.
  unfold getStyle, call_hasOwnProperty.
  destruct (_readStyleAttribute el) as [styleMap|]; cbn; [|done].
  destruct (get_own styleMap "hasOwnProperty") eqn:Hmethod; cbn; [done|].
  intros _. by exists styleMap.
Qed.

(** [getStyle] returns exactly when the attribute is well formed and names
    no style [hasOwnProperty]. *)
Lemma getStyle_returns el styleName :
  (∃ s, getStyle el styleName = Ok s) ↔
  well_formed (style_text el) ∧
  get_own (parse_with parsed_entry (style_text el)) "hasOwnProperty" = None.
Proof.
  split.
  - intros [s (m & Hread & Hnone)%getStyle_Ok].
    assert (Hwf : well_formed (style_text el))
      by (apply _readStyleAttribute_returns; eauto).
    split; [done|].
    rewrite (_readStyleAttribute_well_formed el Hwf) in Hread. congruence.
  - intros [Hwf Hnone]. eexists.
    by apply (getStyle_read _ _ _ (_readStyleAttribute_well_formed el Hwf)).
Qed.

(** After [setStyle(el, n, v)] the style [n] reads as [v], or as the empty
    string when [v] is falsy, and every other style reads as before. *)
Lemma setStyle_getStyle el styleName styleValue s :
  getStyle el styleName = Ok s →
  plain_name styleName → styleName ≠ "hasOwnProperty" →
  plain_value styleValue →
  ∃ el',
    setStyle el styleName styleValue = Ok el' ∧
    getStyle el' styleName
    = Ok (if truthy styleValue then to_string styleValue else "") ∧
    (∀ other, other ≠ styleName → getStyle el' other = getStyle el other).
Proof.
  intros Hget Hname Hmethod Hvalue.
  apply getStyle_Ok in Hget as (m & Hread & Hnone).
  pose proof (_readStyleAttribute_plain _ _ Hread) as Hplain.
  set (m1 := obj_set (as_any m) styleName styleValue).
  assert (Hplain1 : plain_any_map m1).
  { apply (obj_set_plain plain_value); [by apply as_any_plain|done]. }
  assert (Hown1 : ∀ k, get_own m1 k
            = if decide (styleName = k) then Some styleValue
              else VStr <$> get_own m k).
  { intros k. unfold m1. rewrite get_own_obj_set, get_own_as_any.
    destruct Hname as (_ & _ & _ & Hproto). by rewrite decide_False. }
  exists (_writeStyleAttribute el m1).
  assert (Hread' : _readStyleAttribute (_writeStyleAttribute el m1)
                   = Ok (written_entries m1)).
  { apply _readStyleAttribute_emit; [by apply written_entries_plain|].
    apply _writeStyleAttribute_emit. }
  assert (Hget' : ∀ k, getStyle (_writeStyleAttribute el m1) k
            = Ok (default "" (snd <$> written_entry m1 k))).
  { intros k. rewrite (getStyle_read _ _ _ Hread').
    - by rewrite get_own_written_entries.
    - rewrite get_own_written_entries. unfold written_entry.
      rewrite Hown1, decide_False, Hnone by done. done. }
  split; [|split].
  - unfold setStyle. rewrite Hread. done.
  - rewrite Hget'. unfold written_entry.
    rewrite Hown1, decide_True by done. by destruct (truthy styleValue).
  - intros other Hother. rewrite Hget', (getStyle_read _ _ _ Hread Hnone).
    unfold written_entry. rewrite Hown1, decide_False by done.
    destruct (get_own m other) as [t|]; cbn; [|done].
    by destruct (String.eqb_spec t "") as [->|].
Qed.

Lemma elem_of_written_entries styleMap key text :
  (key, text) ∈ written_entries styleMap →
  ∃ value, get_own styleMap key = Some value ∧ truthy value = true ∧
    text = to_string value.
Proof.
  intros (k & _ & Hw)%list_elem_of_omap. unfold written_entry in Hw.
  destruct (get_own styleMap k) as [v|] eqn:Hget; [|done].
  destruct (truthy v) eqn:Htruthy; [|done]. injection Hw as -> <-. eauto.
Qed.

(** C2, as far as it holds.  On an element whose style can be read, that is
    one on which [getStyle(el, "color")] returns, [setStyle(el, "color",
    "red")] followed by [getStyle(el, "color")] gives ["red"], and
    [setStyle(el, "color", null)] followed by [getStyle(el, "color")] gives
    the empty string.  On every element, writing the map [{color: "red",
    margin: ""}] sets the [style] attribute to ["color:red;"]; in general the
    attribute written is the concatenation of [key:value;] over the entries
    with a truthy value, so that an entry with a falsy value leaves no trace
    of its key. *)
Theorem style_codec_roundtrip (el : Element) (s : string) :
  (getStyle el "color" = Ok s →
   (∃ el', setStyle el "color" (VStr "red") = Ok el' ∧
           getStyle el' "color" = Ok "red") ∧
   (∃ el', setStyle el "color" VNull = Ok el' ∧
           getStyle el' "color" = Ok "")) ∧
  el_getAttribute
    (_writeStyleAttribute el [("color", VStr "red"); ("margin", VStr "")])
    "style" = Some "color:red;" ∧
  (∀ styleMap : PlainObject jsval,
     el_getAttribute (_writeStyleAttribute el styleMap) "style"
     = Some (emit (written_entries styleMap)) ∧
     (∀ key text, (key, text) ∈ written_entries styleMap →
        ∃ value, get_own styleMap key = Some value ∧ truthy value = true ∧
          text = to_string value) ∧
     (∀ key value, get_own styleMap key = Some value → truthy value = false →
        key ∉ (written_entries styleMap).*1)).
Proof.
  assert (Hcolor : plain_name "color") by (by repeat split).
  split; [|split].
  - intros Hget. split.
    + destruct (setStyle_getStyle el "color" (VStr "red") s)
        as (el' & Hset & Hread & _); try done.
      by exists el'.
    + destruct (setStyle_getStyle el "color" VNull s)
        as (el' & Hset & Hread & _); try done.
      by exists el'.
  - by rewrite _writeStyleAttribute_emit.
  - intros styleMap. split; [apply _writeStyleAttribute_emit|]. split.
    + apply elem_of_written_entries.
    + intros key value Hget Hfalsy Hin.
      apply list_elem_of_fmap in Hin as ([k text] & -> & Hin).
      apply elem_of_written_entries in Hin as (v & Hget' & Htruthy & _).
      cbn in *. rewrite Hget in Hget'. injection Hget' as <-. congruence.
Qed.

Lemma style_codec_roundtrip_witness :
  getStyle (styled "margin:0; color:blue") "color" = Ok "blue" ∧
  (∃ el', setStyle (styled "margin:0; color:blue") "color" (VStr "red") = Ok el' ∧
          getStyle el' "color" = Ok "red") ∧
  (∃ el', setStyle (styled "margin:0; color:blue") "color" VNull = Ok el' ∧
          getStyle el' "color" = Ok "").
Proof.
  split; [reflexivity|].
  apply (style_codec_roundtrip (styled "margin:0; color:blue") "blue").
  reflexivity.
Defined.

(** C2 as stated fails on an element whose [style] attribute cannot be
    parsed: [setStyle] throws instead of storing the colour. *)
Lemma malformed_setStyle_counterexample :
  setStyle (styled "color red") "color" (VStr "red")
  = Throw (Error "Invalid CSS style: color red") ∧
  ¬ ∃ el', setStyle (styled "color red") "color" (VStr "red") = Ok el' ∧
           getStyle el' "color" = Ok "red".
Proof. split; [done|]. by intros (el' & Hset & _). Qed.

(** * Further properties *)

(** ** The style codec: one write, seen through the parser *)

Lemma getStyle_read_style el styleMap styleName :
  _readStyleAttribute el = Ok styleMap →
  getStyle el styleName = read_style styleMap styleName.
Proof.
  intros Hread. unfold getStyle, call_hasOwnProperty, read_style.
  rewrite Hread. cbn. destruct (get_own styleMap "hasOwnProperty"); [done|].
  cbn. rewrite has_own_get_own. destruct (get_own styleMap styleName).
  - by rewrite bool_decide_true.
  - rewrite bool_decide_false; [done|]. by intros [? ?].
Qed.

Lemma hasStyle_of_getStyle el styleName expected :
  hasStyle el styleName expected
  = s ← getStyle el styleName;
    Ok (match expected with
        | Some v => if decide (v = "") then bool_decide (s ≠ "")
                    else bool_decide (s = v)
        | None => bool_decide (s ≠ "")
        end).
Proof.
  unfold hasStyle. destruct (getStyle el styleName) as [s|e]; [|done]. cbn.
  assert (Hval : (if negb (String.eqb s "") then s else "") = s).
  { destruct (String.eqb_spec s ""); by subst. }
  rewrite Hval, string_length_pos. destruct expected as [v|]; [|done].
  destruct (String.eqb_spec v "") as [->|Hv]; cbn.
  - by rewrite decide_True.
  - rewrite decide_False by done. f_equal.
    destruct (String.eqb_spec s v).
    + by rewrite bool_decide_true.
    + by rewrite bool_decide_false.
Qed.

Lemma written_entries_writable styleMap :
  writable_map styleMap → plain_map (written_entries styleMap).
Proof.
  intros [Hnd Hall]. split.
  - apply omap_keys_NoDup; [apply written_entry_key|].
    by rewrite forin_keys_Permutation.
  - apply Forall_forall. intros [k s] Hin.
    apply list_elem_of_omap in Hin as (k' & _ & Hw).
    unfold written_entry in Hw.
    destruct (get_own styleMap k') as [v|] eqn:Hget; [|done].
    destruct (truthy v) eqn:Htruthy; [|done]. injection Hw as -> <-.
    apply get_own_elem_of in Hget.
    destruct (proj1 (Forall_forall _ _) Hall _ Hget Htruthy) as [Hname Hvalue].
    cbn in *. split; [done|]. by destruct v.
Qed.

Lemma get_own_written styleMap key :
  get_own (written_entries styleMap) key = written (get_own styleMap key).
Proof.
  rewrite get_own_written_entries. unfold written_entry, written.
  destruct (get_own styleMap key) as [v|]; [|done]. by destruct (truthy v).
Qed.

Lemma as_any_writable styleMap : plain_map styleMap → writable_map (as_any styleMap).
Proof.
  intros [Hnd Hall]%as_any_plain. split; [done|].
  apply (Forall_impl _ _ _ Hall). by intros e ? _.
Qed.

Lemma plain_map_no_proto styleMap :
  plain_map styleMap → get_own styleMap "__proto__" = None.
Proof.
  intros [_ Hall]. apply get_own_None. intros Hin.
  apply list_elem_of_fmap in Hin as ([k v] & Hk & Hin). cbn in Hk. subst k.
  apply (proj1 (Forall_forall _ _) Hall) in Hin as [(_ & _ & _ & Hproto) _].
  done.
Qed.

(** What [setStyle] does to an element whose attribute parses: it succeeds,
    touches the [style] attribute only, and the new attribute parses to the
    old map with the empty texts dropped and the one name set. *)
Lemma setStyle_core el styleMap styleName styleValue :
  _readStyleAttribute el = Ok styleMap →
  (truthy styleValue = true → plain_name styleName ∧ plain_value styleValue) →
  ∃ el' styleMap',
    setStyle el styleName styleValue = Ok el' ∧
    _readStyleAttribute el' = Ok styleMap' ∧
    (∀ k, get_own styleMap' k
          = if decide (styleName = k) then written (Some styleValue)
            else kept (get_own styleMap k)) ∧
    attributes el' = <["style" := emit styleMap']> (attributes el) ∧
    properties el' = properties el.
Proof.
  intros Hread Hplain.
  pose proof (_readStyleAttribute_plain _ _ Hread) as Hmap.
  set (m1 := obj_set (as_any styleMap) styleName styleValue).
  assert (Hwritable : writable_map m1).
  { destruct (as_any_writable _ Hmap) as [Hnd Hall]. unfold m1, obj_set.
    destruct (String.eqb_spec styleName "__proto__"); [done|]. split.
    - by apply put_own_NoDup.
    - by apply put_own_Forall. }
  exists (_writeStyleAttribute el m1), (written_entries m1).
  split; [|split; [|split; [|split]]].
  - unfold setStyle. by rewrite Hread.
  - apply _readStyleAttribute_emit; [by apply written_entries_writable|].
    apply _writeStyleAttribute_emit.
  - intros k. rewrite get_own_written. unfold m1.
    rewrite get_own_obj_set, get_own_as_any.
    destruct (decide (styleName = "__proto__")) as [->|Hproto].
    + case_decide as Hk.
      * subst k. rewrite (plain_map_no_proto _ Hmap). cbn.
        destruct (truthy styleValue) eqn:Htruthy; [|done].
        by destruct (Hplain eq_refl) as [(_ & _ & _ & ?) _].
      * destruct (get_own styleMap k) as [s|]; [|done]. cbn.
        case_decide; by destruct (String.eqb_spec s "").
    + case_decide; [done|].
      destruct (get_own styleMap k) as [s|]; [|done]. cbn.
      case_decide; by destruct (String.eqb_spec s "").
  - unfold _writeStyleAttribute, el_setAttribute. cbn.
    by rewrite write_style_fold.
  - done.
Qed.

Lemma default_kept value : default "" (kept value) = default "" value.
Proof. destruct value as [s|]; [|done]. cbn. by case_decide. Qed.

Lemma kept_kept value : kept (kept value) = kept value.
Proof. destruct value as [s|]; [|done]. cbn. case_decide; [done|]. cbn. by case_decide. Qed.


(** X1. On an element whose styles can be read, [setStyle(el, n, v)] with a
    plain name and a plain, non-empty text succeeds; afterwards
    [getStyle(el, n)] is [v], [hasStyle(el, n)] and [hasStyle(el, n, v)] are
    true, [hasStyle(el, n, v')] is false for any other non-empty [v'], every
    other style reads and tests as before, and nothing but the [style]
    attribute of the element has changed. *)
Theorem setStyle_reads_back (el : Element) (styleName v s0 : string) :
  getStyle el styleName = Ok s0 →
  plain_name styleName → styleName ≠ "hasOwnProperty" →
  plain_text v → v ≠ "" →
  ∃ el',
    setStyle el styleName (VStr v) = Ok el' ∧
    getStyle el' styleName = Ok v ∧
    hasStyle el' styleName None = Ok true ∧
    hasStyle el' styleName (Some v) = Ok true ∧
    (∀ v', v' ≠ "" → v' ≠ v → hasStyle el' styleName (Some v') = Ok false) ∧
    (∀ other expected, other ≠ styleName →
       getStyle el' other = getStyle el other ∧
       hasStyle el' other expected = hasStyle el other expected) ∧
    (∀ a, a ≠ "style" → el_getAttribute el' a = el_getAttribute el a) ∧
    properties el' = properties el.
Proof.
  intros Hget Hname Hmethod Htext Hv.
  apply getStyle_Ok in Hget as (m & Hread & Hnone).
  destruct (setStyle_core el m styleName (VStr v) Hread)
    as (el' & L & Hset & Hread' & Hown & Hattrs & Hprops); [done|].
  assert (Htruthy : truthy (VStr v) = true)
    by (cbn; by destruct (String.eqb_spec v "")).
  assert (Hget' : ∀ k, getStyle el' k = Ok (default "" (get_own L k))).
  { intros k. rewrite (getStyle_read_style _ _ _ Hread'). unfold read_style.
    by rewrite (Hown "hasOwnProperty"), decide_False, Hnone. }
  assert (Hself : getStyle el' styleName = Ok v).
  { rewrite Hget', Hown, decide_True by done. cbn -[truthy]. by rewrite Htruthy. }
  exists el'. split; [done|]. split; [done|].
  rewrite !hasStyle_of_getStyle, Hself. cbn.
  rewrite !decide_False, !bool_decide_true by done.
  split; [done|]. split; [done|]. split; [|split; [|split]].
  - intros v' Hv' Hne. rewrite hasStyle_of_getStyle, Hself. cbn.
    rewrite decide_False, bool_decide_false by done. done.
  - intros other expected Hother.
    assert (Heq : getStyle el' other = getStyle el other).
    { rewrite Hget', (getStyle_read_style _ _ _ Hread). unfold read_style.
      by rewrite Hnone, Hown, decide_False, default_kept. }
    split; [done|]. by rewrite !hasStyle_of_getStyle, Heq.
  - intros a Ha. unfold el_getAttribute. rewrite Hattrs.
    by rewrite lookup_insert_ne.
  - done.
Qed.

Lemma setStyle_reads_back_witness :
  getStyle (styled "margin:0; color:blue") "color" = Ok "blue" ∧
  plain_name "color" ∧ "color" ≠ "hasOwnProperty" ∧
  plain_text "dark red" ∧ "dark red" ≠ "" ∧
  ∃ el',
    setStyle (styled "margin:0; color:blue") "color" (VStr "dark red") = Ok el' ∧
    getStyle el' "color" = Ok "dark red".
Proof.
  assert (Hname : plain_name "color") by (by repeat split).
  assert (Htext : plain_text "dark red") by (by split).
  split; [reflexivity|]. split; [exact Hname|]. split; [discriminate|].
  split; [exact Htext|]. split; [discriminate|].
  destruct (setStyle_reads_back (styled "margin:0; color:blue")
              "color" "dark red" "blue" eq_refl Hname
              ltac:(discriminate) Htext ltac:(discriminate))
    as (el' & Hset & Hget & _).
  exists el'. split; [exact Hset|exact Hget].
Defined.

(** X2. On an element whose styles can be read, [removeStyle(el, n)]
    succeeds for every name [n]; afterwards [getStyle(el, n)] is the empty
    string, [hasStyle(el, n, ...)] is false with or without a value, every
    other style reads and tests as before, and nothing but the [style]
    attribute has changed. *)
Theorem removeStyle_removes (el : Element) (styleName s0 : string) :
  getStyle el styleName = Ok s0 →
  ∃ el',
    removeStyle el styleName = Ok el' ∧
    getStyle el' styleName = Ok "" ∧
    (∀ expected, hasStyle el' styleName expected = Ok false) ∧
    (∀ other expected, other ≠ styleName →
       getStyle el' other = getStyle el other ∧
       hasStyle el' other expected = hasStyle el other expected) ∧
    (∀ a, a ≠ "style" → el_getAttribute el' a = el_getAttribute el a) ∧
    properties el' = properties el.
Proof.
  intros Hget. apply getStyle_Ok in Hget as (m & Hread & Hnone).
  destruct (setStyle_core el m styleName VNull Hread)
    as (el' & L & Hset & Hread' & Hown & Hattrs & Hprops); [done|].
  assert (Hget' : ∀ k, getStyle el' k = Ok (default "" (get_own L k))).
  { intros k. rewrite (getStyle_read_style _ _ _ Hread'). unfold read_style.
    rewrite (Hown "hasOwnProperty"). case_decide; [done|]. by rewrite Hnone. }
  assert (Hself : getStyle el' styleName = Ok "").
  { by rewrite Hget', Hown, decide_True. }
  exists el'. split; [done|]. split; [done|]. split; [|split; [|split]].
  - intros expected. rewrite hasStyle_of_getStyle, Hself. cbn.
    destruct expected as [v|]; [|done]. case_decide; [done|].
    by rewrite bool_decide_false by congruence.
  - intros other expected Hother.
    assert (Heq : getStyle el' other = getStyle el other).
    { rewrite Hget', (getStyle_read_style _ _ _ Hread). unfold read_style.
      by rewrite Hnone, Hown, decide_False, default_kept. }
    split; [done|]. by rewrite !hasStyle_of_getStyle, Heq.
  - intros a Ha. unfold el_getAttribute. rewrite Hattrs.
    by rewrite lookup_insert_ne.
  - done.
Qed.

Lemma removeStyle_removes_witness :
  getStyle (styled "margin:0; color:blue") "color" = Ok "blue" ∧
  ∃ el',
    removeStyle (styled "margin:0; color:blue") "color" = Ok el' ∧
    getStyle el' "color" = Ok "" ∧
    getStyle el' "margin" = Ok "0".
Proof.
  split; [reflexivity|].
  destruct (removeStyle_removes (styled "margin:0; color:blue") "color" "blue"
              eq_refl) as (el' & Hrm & Hget & _ & Hother & _).
  exists el'. split; [exact Hrm|]. split; [exact Hget|].
  destruct (Hother "margin" None ltac:(discriminate)) as [Hmargin _].
  rewrite Hmargin. reflexivity.
Defined.

(** X3. The last write wins, for values that survive writing and reading.
    Take an element whose [style] attribute is well formed, a name [n] and
    two values such that each of them is either falsy or a plain text (a
    string that is trimmed and has no semicolon) given under a plain name
    (trimmed, without colon or semicolon, other than [__proto__]).  Then
    [setStyle(el, n, first)] followed by [setStyle(el, n, second)] leaves
    every [getStyle] and every [hasStyle] exactly as [setStyle(el, n,
    second)] alone does; in particular repeating such a [setStyle] changes
    no reading. *)
Theorem setStyle_last_write_wins (el : Element) (styleName : string)
    (first second : jsval) :
  well_formed (style_text el) →
  (truthy first = true → plain_name styleName ∧ plain_value first) →
  (truthy second = true → plain_name styleName ∧ plain_value second) →
  ∃ el1 el12 el2,
    setStyle el styleName first = Ok el1 ∧
    setStyle el1 styleName second = Ok el12 ∧
    setStyle el styleName second = Ok el2 ∧
    ∀ k expected,
      getStyle el12 k = getStyle el2 k ∧
      hasStyle el12 k expected = hasStyle el2 k expected.
Proof.
  intros Hwf Hfirst Hsecond.
  pose proof (_readStyleAttribute_well_formed el Hwf) as Hread.
  destruct (setStyle_core el _ styleName first Hread Hfirst)
    as (el1 & L1 & Hset1 & Hread1 & Hown1 & _).
  destruct (setStyle_core el1 _ styleName second Hread1 Hsecond)
    as (el12 & L12 & Hset12 & Hread12 & Hown12 & _).
  destruct (setStyle_core el _ styleName second Hread Hsecond)
    as (el2 & L2 & Hset2 & Hread2 & Hown2 & _).
  exists el1, el12, el2. split; [done|]. split; [done|]. split; [done|].
  assert (Hsame : ∀ k, get_own L12 k = get_own L2 k).
  { intros k. rewrite Hown12, Hown2, Hown1.
    case_decide; [done|]. apply kept_kept. }
  intros k expected.
  assert (Heq : getStyle el12 k = getStyle el2 k).
  { rewrite (getStyle_read_style _ _ _ Hread12),
      (getStyle_read_style _ _ _ Hread2).
    unfold read_style. by rewrite !Hsame. }
  split; [done|]. by rewrite !hasStyle_of_getStyle, Heq.
Qed.

Lemma setStyle_last_write_wins_witness :
  well_formed (style_text (styled "color:blue;margin:0")) ∧
  ∃ el1 el12 el2,
    removeStyle (styled "color:blue;margin:0") "color" = Ok el1 ∧
    setStyle el1 "color" (VStr "red") = Ok el12 ∧
    setStyle (styled "color:blue;margin:0") "color" (VStr "red") = Ok el2 ∧
    ∀ k expected,
      getStyle el12 k = getStyle el2 k ∧
      hasStyle el12 k expected = hasStyle el2 k expected.
Proof.
  assert (Hwf : well_formed (style_text (styled "color:blue;margin:0"))).
  { vm_compute. repeat constructor. }
  split; [exact Hwf|].
  apply (setStyle_last_write_wins (styled "color:blue;margin:0") "color"
           VNull (VStr "red") Hwf).
  - discriminate.
  - intros _. split; [by repeat split|by split].
Defined.

(** X4. Writing and reading are inverse on what can be written.  For a map
    with distinct keys whose truthy entries have plain names and plain
    texts, [_readStyleAttribute] after [_writeStyleAttribute] succeeds and
    returns, for every key, the text written for it: the string of its
    value when the value is truthy, and no entry otherwise. *)
Theorem write_then_read (el : Element) (styleMap : PlainObject jsval) :
  writable_map styleMap →
  ∃ readBack,
    _readStyleAttribute (_writeStyleAttribute el styleMap) = Ok readBack ∧
    (∀ key, get_own readBack key = written (get_own styleMap key)) ∧
    NoDup readBack.*1 ∧
    (∀ key, getStyle (_writeStyleAttribute el styleMap) key
            = match written (get_own styleMap "hasOwnProperty") with
              | Some _ =>
                  Throw (TypeError "styleMap.hasOwnProperty is not a function")
              | None => Ok (default "" (written (get_own styleMap key)))
              end).
Proof.
  intros Hwritable.
  pose proof (written_entries_writable _ Hwritable) as Hplain.
  assert (Hread : _readStyleAttribute (_writeStyleAttribute el styleMap)
                  = Ok (written_entries styleMap)).
  { apply _readStyleAttribute_emit; [done|apply _writeStyleAttribute_emit]. }
  exists (written_entries styleMap). split; [done|].
  split; [apply get_own_written|]. split; [apply Hplain|].
  intros key. rewrite (getStyle_read_style _ _ _ Hread). unfold read_style.
  by rewrite !get_own_written.
Qed.

Lemma write_then_read_witness :
  writable_map [("margin", VStr ""); ("color", VStr "red"); ("a:b", VNull)] ∧
  ∃ readBack,
    _readStyleAttribute
      (_writeStyleAttribute (styled "x")
         [("margin", VStr ""); ("color", VStr "red"); ("a:b", VNull)])
    = Ok readBack ∧
    (∀ key, get_own readBack key
            = written (get_own [("margin", VStr ""); ("color", VStr "red");
                                ("a:b", VNull)] key)).
Proof.
  assert (Hw : writable_map
            [("margin", VStr ""); ("color", VStr "red"); ("a:b", VNull)]).
  { split.
    - apply (bool_decide_unpack _). vm_compute. exact I.
    - repeat constructor; cbn; try discriminate. }
  split; [exact Hw|].
  destruct (write_then_read (styled "x") _ Hw) as (readBack & Hread & Hown & _).
  exists readBack. split; [exact Hread|exact Hown].
Defined.

(** X5. Whatever [getStyle] returns is a plain text: trimmed and free of
    semicolons.  It returns a non-empty text only for a plain name, so a
    name with a colon or a semicolon, with white space at either end, or
    [__proto__], always reads as the empty string. *)
Theorem getStyle_returns_plain (el : Element) (styleName s : string) :
  getStyle el styleName = Ok s →
  plain_text s ∧ (s ≠ "" → plain_name styleName) ∧
  (¬ plain_name styleName → s = "" ∧ hasStyle el styleName None = Ok false).
Proof.
  intros Hget.
  assert (Hparts : plain_text s ∧ (s ≠ "" → plain_name styleName)).
  { apply getStyle_Ok in Hget as Hm. destruct Hm as (m & Hread & Hnone).
    rewrite (getStyle_read _ _ _ Hread Hnone) in Hget. injection Hget as <-.
    pose proof (_readStyleAttribute_plain _ _ Hread) as [_ Hall].
    destruct (get_own m styleName) as [t|] eqn:Hown; cbn.
    - apply get_own_elem_of in Hown.
      apply (proj1 (Forall_forall _ _) Hall) in Hown as [Hname Htext].
      done.
    - split; [by split|done]. }
  destruct Hparts as [Htext Hname]. split; [done|]. split; [done|].
  intros Hnot. assert (s = "") as ->.
  { destruct (decide (s = "")); [done|]. exfalso. auto. }
  split; [done|]. by rewrite hasStyle_of_getStyle, Hget.
Qed.

Lemma getStyle_returns_plain_witness :
  getStyle (styled " color : dark red ;a:b:c") "a:b" = Ok "" ∧
  plain_text "" ∧ ("" ≠ "" → plain_name "a:b") ∧
  (¬ plain_name "a:b" →
   "" = "" ∧ hasStyle (styled " color : dark red ;a:b:c") "a:b" None = Ok false).
Proof.
  split; [reflexivity|].
  apply (getStyle_returns_plain (styled " color : dark red ;a:b:c") "a:b" "").
  reflexivity.
Defined.

(** ** The style codec: elements without a style *)

Lemma unstyled_read el : unstyled el → _readStyleAttribute el = Ok [].
Proof.
  unfold unstyled, style_text, _readStyleAttribute.
  destruct (el_getAttribute el "style") as [styleAttribute|]; cbn; [|done].
  by intros ->.
Qed.

Lemma forin_keys_singleton {V} (key : string) (value : V) :
  forin_keys [(key, value)] = [key].
Proof.
  unfold forin_keys. cbn. unfold index_entry.
  destruct (array_index key) as [n|] eqn:Hindex; cbn; by case_decide.
Qed.

Lemma unstyled_setStyle el styleName (v : string) :
  unstyled el → styleName ≠ "__proto__" → v ≠ "" →
  ∃ el', setStyle el styleName (VStr v) = Ok el' ∧
    el_getAttribute el' "style" = Some (styleName +:+ ":" +:+ v +:+ ";").
Proof.
  intros Hun Hproto Hv. pose proof (unstyled_read el Hun) as Hread.
  assert (Htruthy : truthy (VStr v) = true) by by destruct v.
  eexists. split.
  { unfold setStyle. rewrite Hread. reflexivity. }
  rewrite _writeStyleAttribute_emit. unfold obj_set. cbn.
  destruct (String.eqb_spec styleName "__proto__"); [done|].
  unfold written_entries. rewrite forin_keys_singleton. cbn.
  unfold written_entry. cbn. by rewrite String.eqb_refl, Htruthy.
Qed.

(** X6. An element without a [style] attribute, or with an empty one, has
    no style: [getStyle] is the empty string and [hasStyle] is false, for
    every name.  The first [setStyle] with a non-empty string [v] and a
    name other than [__proto__] writes exactly [name:v;].  A [setStyle]
    whose value is a string, [null] or [undefined] and that stores nothing
    (the value is the empty string, [null] or [undefined], or the name is
    [__proto__]) still writes the attribute, as the empty string, and so
    does [removeStyle]. *)
Theorem unstyled_element (el : Element) :
  unstyled el →
  (∀ styleName expected,
     getStyle el styleName = Ok "" ∧ hasStyle el styleName expected = Ok false) ∧
  (∀ styleName (v : string),
     styleName ≠ "__proto__" → v ≠ "" →
     ∃ el', setStyle el styleName (VStr v) = Ok el' ∧
       el_getAttribute el' "style" = Some (styleName +:+ ":" +:+ v +:+ ";")) ∧
  (∀ styleName styleValue,
     style_argument styleValue →
     styleName = "__proto__" ∨ truthy styleValue = false →
     ∃ el', setStyle el styleName styleValue = Ok el' ∧
       el_getAttribute el' "style" = Some "") ∧
  (∀ styleName, ∃ el', removeStyle el styleName = Ok el' ∧
       el_getAttribute el' "style" = Some "").
Proof.
  intros Hun. pose proof (unstyled_read el Hun) as Hread.
  assert (Hget : ∀ styleName, getStyle el styleName = Ok "").
  { intros styleName. by rewrite (getStyle_read_style _ _ _ Hread). }
  assert (Hfalsy : ∀ styleName styleValue,
     styleName = "__proto__" ∨ truthy styleValue = false →
     ∃ el', setStyle el styleName styleValue = Ok el' ∧
       el_getAttribute el' "style" = Some "").
  { intros styleName styleValue Hcase. eexists. split.
    { unfold setStyle. rewrite Hread. reflexivity. }
    rewrite _writeStyleAttribute_emit. unfold obj_set. cbn.
    destruct (String.eqb_spec styleName "__proto__") as [|Hne]; [done|].
    destruct Hcase as [?|Hvalue]; [done|].
    unfold written_entries. rewrite forin_keys_singleton. cbn.
    unfold written_entry. cbn. by rewrite String.eqb_refl, Hvalue. }
  split; [|split; [|split]].
  - intros styleName expected. split; [done|].
    rewrite hasStyle_of_getStyle, Hget. cbn.
    destruct expected as [v|]; [|done]. case_decide; [done|].
    by rewrite bool_decide_false by congruence.
  - intros styleName v Hproto Hv. by apply unstyled_setStyle.
  - intros styleName styleValue _. apply Hfalsy.
  - intros styleName. apply Hfalsy. by right.
Qed.

Lemma unstyled_element_witness :
  unstyled (mkObject ∅ ∅) ∧
  (∃ el', setStyle (mkObject ∅ ∅) "color" (VStr "red") = Ok el' ∧
     el_getAttribute el' "style" = Some "color:red;") ∧
  (∃ el', setStyle (mkObject ∅ ∅) "color" VNull = Ok el' ∧
     el_getAttribute el' "style" = Some "").
Proof.
  assert (Hun : unstyled (mkObject ∅ ∅)) by reflexivity.
  split; [exact Hun|].
  destruct (unstyled_element (mkObject ∅ ∅) Hun) as (_ & Hset & Hnone & _).
  split.
  - apply (Hset "color" "red"); discriminate.
  - apply (Hnone "color" VNull); [exact I|by right].
Defined.

(** ** The style codec: a style named like a method *)



(** ** The style codec: declarations joined by a semicolon *)

Lemma split_go_whole in_run s :
  occurs ";" s = false → split_go in_run s = [s].
Proof.
  revert in_run. induction s as [|c r IH]; intros in_run; [done|].
  cbn. intros [Hc Hr]%orb_false_iff. unfold is_semicolon. rewrite Hc.
  by rewrite IH.
Qed.

Lemma split_go_nonempty in_run s :
  ∃ piece pieces, split_go in_run s = piece :: pieces.
Proof.
  revert in_run. induction s as [|c r IH]; intros in_run; cbn; [eauto|].
  destruct (is_semicolon c).
  - destruct in_run; eauto.
  - destruct (IH false) as (piece & pieces & ->). eauto.
Qed.

(** Splitting [a;b]: the pieces of [a], then those of [b], except that an
    empty last piece of [a] merges with the separator. *)
Lemma split_go_append in_run a b :
  split_go in_run (a +:+ String ";" b) = split_go in_run a ++ split_go true b ∨
  ∃ init,
    split_go in_run a = init ++ [""] ∧
    split_go in_run (a +:+ String ";" b) = init ++ split_go true b ∧
    (in_run = false → init ≠ []).
Proof.
  revert in_run. induction a as [|c a IH]; intros in_run.
  { rewrite append_empty. destruct in_run; cbn.
    - right. exists []. done.
    - by left. }
  rewrite append_cons. cbn [split_go].
  destruct (is_semicolon c).
  - destruct (IH true) as [Heq|(init & Ha & Hab & _)].
    + left. rewrite Heq. by destruct in_run.
    + right. rewrite Ha, Hab. destruct in_run.
      * exists init. done.
      * exists ("" :: init). done.
  - destruct (IH false) as [Heq|(init & Ha & Hab & Hinit)].
    + left. rewrite Heq.
      by destruct (split_go_nonempty false a) as (piece & pieces & ->).
    + right. rewrite Ha, Hab.
      destruct init as [|piece pieces]; [by destruct Hinit|].
      exists (String c piece :: pieces). done.
Qed.

Lemma filter_split_go s :
  filter (fun piece => piece ≠ "") (split_go true s) = segments s.
Proof.
  unfold segments, split_semicolons. destruct s as [|c r]; [done|]. cbn.
  destruct (is_semicolon c); [|done].
  by rewrite filter_cons_False by (intros H; by apply H).
Qed.

(** The non-empty segments of [a;b] are those of [a] followed by those of
    [b]. *)
Lemma segments_append a b :
  segments (a +:+ String ";" b) = segments a ++ segments b.
Proof.
  rewrite <- (filter_split_go b). unfold segments, split_semicolons.
  destruct (split_go_append false a b) as [->|(init & -> & -> & _)].
  - by rewrite filter_app.
  - rewrite !filter_app. rewrite (filter_cons_False _ "") by (intros H; by apply H).
    by rewrite filter_nil, app_nil_r.
Qed.

(** X8. A later declaration wins.  When the [style] attribute of [el2] is
    that of a readable element [el] followed by a semicolon and one more
    declaration [segment] (with a colon and no semicolon, named neither
    [hasOwnProperty] nor [__proto__]), [getStyle] on [el2] returns, for the
    name declared, the value declared, whatever [el] held for it, and for
    every other name what it returns on [el]. *)
Theorem later_declaration_wins (el el2 : Element) (segment s0 : string) :
  getStyle el (parsed_entry segment).1 = Ok s0 →
  occurs ";" segment = false → occurs ":" segment = true →
  (parsed_entry segment).1 ≠ "hasOwnProperty" →
  (parsed_entry segment).1 ≠ "__proto__" →
  style_text el2 = style_text el +:+ String ";" segment →
  getStyle el2 (parsed_entry segment).1 = Ok (parsed_entry segment).2 ∧
  (∀ other, other ≠ (parsed_entry segment).1 →
     getStyle el2 other = getStyle el other).
Proof.
  intros Hget Hsemi Hcolon Hmethod Hproto Htext.
  apply getStyle_Ok in Hget as (m & Hread & Hnone).
  assert (Hwf : well_formed (style_text el))
    by (apply _readStyleAttribute_returns; eauto).
  rewrite (_readStyleAttribute_well_formed el Hwf) in Hread.
  injection Hread as <-.
  assert (Hsegment : segments segment = [segment]).
  { unfold segments, split_semicolons. rewrite split_go_whole by done.
    rewrite filter_cons_True; [done|]. by intros ->. }
  assert (Hsegments : segments (style_text el2)
                      = segments (style_text el) ++ [segment]).
  { by rewrite Htext, segments_append, Hsegment. }
  assert (Hwf2 : well_formed (style_text el2)).
  { unfold well_formed. rewrite Hsegments. apply Forall_app.
    split; [done|]. by repeat constructor. }
  pose proof (_readStyleAttribute_well_formed el2 Hwf2) as Hread2.
  pose proof (_readStyleAttribute_well_formed el Hwf) as Hread.
  assert (Hparse : parse_with parsed_entry (style_text el2)
            = obj_set (parse_with parsed_entry (style_text el))
                (parsed_entry segment).1 (parsed_entry segment).2).
  { unfold parse_with. by rewrite Hsegments, foldl_app. }
  assert (Hget2 : ∀ k, getStyle el2 k
            = Ok (default "" (if decide ((parsed_entry segment).1 = k)
                              then Some (parsed_entry segment).2
                              else get_own (parse_with parsed_entry
                                              (style_text el)) k))).
  { intros k. rewrite (getStyle_read_style _ _ _ Hread2). unfold read_style.
    rewrite Hparse, !get_own_obj_set. by rewrite !decide_False, Hnone by done. }
  split.
  - by rewrite Hget2, decide_True.
  - intros other Hother. rewrite Hget2, decide_False by done.
    by rewrite (getStyle_read _ _ _ Hread Hnone).
Qed.

Lemma later_declaration_wins_witness :
  getStyle (styled "color:red;margin:0") "color" = Ok "red" ∧
  style_text (styled "color:red;margin:0; color : blue ")
  = style_text (styled "color:red;margin:0") +:+ String ";" " color : blue " ∧
  getStyle (styled "color:red;margin:0; color : blue ") "color" = Ok "blue" ∧
  (∀ other, other ≠ "color" →
     getStyle (styled "color:red;margin:0; color : blue ") other
     = getStyle (styled "color:red;margin:0") other).
Proof.
  split; [reflexivity|]. split; [reflexivity|].
  apply (later_declaration_wins (styled "color:red;margin:0")
           (styled "color:red;margin:0; color : blue ") " color : blue " "red");
    (reflexivity || discriminate).
Defined.

(** ** Containment: order, absent arguments, cycles *)

Lemma rtc_parent_depth h depth b a :
  upward h depth → rtc (parent_link h) b a → a = b ∨ (depth a < depth b)%nat.
Proof.
  intros Hup. induction 1 as [|b p a Hlink _ IH]; [by left|].
  right. apply Hup in Hlink. destruct IH as [->|?]; lia.
Qed.

(** X10. On the nodes of a tree [contains] is a partial order: besides being
    reflexive it is transitive and antisymmetric, and a node is never
    contained in a node that lies deeper. *)
Theorem contains_partial_order (h : Heap) (depth : loc → nat) (a b c : loc)
    (fuel : nat) :
  upward h depth →
  (depth a + 3 ≤ fuel)%nat → (depth b + 3 ≤ fuel)%nat →
  (depth c + 3 ≤ fuel)%nat →
  (contains h fuel (VRef a) (VRef b) = Some true →
   contains h fuel (VRef b) (VRef c) = Some true →
   contains h fuel (VRef a) (VRef c) = Some true) ∧
  (contains h fuel (VRef a) (VRef b) = Some true →
   contains h fuel (VRef b) (VRef a) = Some true → a = b) ∧
  (contains h fuel (VRef a) (VRef b) = Some true → (depth a ≤ depth b)%nat).
Proof.
  intros Hup Ha Hb Hc. unfold contains.
  pose proof (λ x y Hy, proj2 (contains_loop_walk h depth x Hup fuel y Hy))
    as Hwalk.
  split; [|split].
  - rewrite (Hwalk a b), (Hwalk b c), (Hwalk a c) by done.
    intros Hba Hcb. by etrans.
  - rewrite (Hwalk a b), (Hwalk b a) by done. intros Hba Hab.
    apply (rtc_parent_depth _ depth) in Hba; [|done].
    apply (rtc_parent_depth _ depth) in Hab; [|done].
    destruct Hba as [->|?]; [done|]. destruct Hab as [->|?]; [done|]. lia.
  - rewrite (Hwalk a b) by done. intros Hba.
    apply (rtc_parent_depth _ depth) in Hba; [|done].
    destruct Hba as [->|?]; lia.
Qed.

Lemma sample_page_upward : upward (heap sample_page) sample_depth.
Proof.
  intros c p Hlink. unfold parent_link, prop, sample_page in Hlink.
  cbn in Hlink. rewrite !lookup_insert in Hlink.
  repeat case_decide; subst; try done.
  vm_compute in Hlink. injection Hlink as <-. vm_compute. lia.
Qed.

Lemma contains_partial_order_witness :
  upward (heap sample_page) sample_depth ∧
  (sample_depth 2 + 3 ≤ 4)%nat ∧ (sample_depth 1 + 3 ≤ 4)%nat ∧
  (contains (heap sample_page) 4 (VRef 2) (VRef 1) = Some true →
   contains (heap sample_page) 4 (VRef 1) (VRef 2) = Some true →
   2%positive = 1%positive).
Proof.
  assert (H2 : (sample_depth 2 + 3 ≤ 4)%nat) by (vm_compute; lia).
  assert (H1 : (sample_depth 1 + 3 ≤ 4)%nat) by (vm_compute; lia).
  split; [exact sample_page_upward|]. split; [exact H2|]. split; [exact H1|].
  apply (contains_partial_order (heap sample_page) sample_depth 2 1 1 4
           sample_page_upward H2 H1 H1).
Defined.

(** X11. [contains] has no protection against cycles: when the walk from
    [nodeB] stays within nodes that are present and differ from [nodeA], as
    on a cycle of parents that misses [nodeA], the loop never ends, however
    many turns it is given. *)
Theorem contains_never_returns_on_cycle (h : Heap) (nodeA nodeB : jsval)
    (on_walk : jsval → Prop) :
  on_walk nodeB →
  (∀ v, on_walk v →
     truthy v = true ∧ v ≠ nodeA ∧ on_walk (prop h v "parent")) →
  ∀ fuel, contains h fuel nodeA nodeB = None.
Proof.
  intros Hstart Hclosed fuel. unfold contains. revert nodeB Hstart.
  induction fuel as [|fuel IH]; intros inner Hinner; [done|].
  destruct (Hclosed inner Hinner) as (Htruthy & Hne & Hnext).
  cbn. rewrite Htruthy. unfold strict_eq. rewrite bool_decide_false by done.
  by apply IH.
Qed.

Lemma contains_never_returns_on_cycle_witness :
  contains self_parent 1000 (VRef 2) (VRef 1) = None.
Proof.
  apply (contains_never_returns_on_cycle self_parent (VRef 2) (VRef 1)
           (fun v => v = VRef 1)).
  - reflexivity.
  - intros v ->. split; [reflexivity|]. split; [discriminate|reflexivity].
Defined.

Lemma contains_loop_absent_off_graph h nodeA fuel inner :
  truthy nodeA = false → (∀ l, inner ≠ VRef l) → (2 ≤ fuel)%nat →
  contains_loop h nodeA fuel inner = Some false.
Proof.
  intros Habsent Hprim Hfuel. destruct fuel as [|[|fuel]]; [lia..|].
  cbn. destruct (truthy inner) eqn:Htruthy; [|done].
  unfold strict_eq. rewrite bool_decide_false by (intros ->; congruence).
  assert (prop h inner "parent" = VUndef) as ->; [|done].
  destruct inner; try done. by destruct (Hprim l).
Qed.

Lemma contains_loop_absent h depth nodeA :
  upward h depth → truthy nodeA = false →
  ∀ fuel b, (depth b + 3 ≤ fuel)%nat →
    contains_loop h nodeA fuel (VRef b) = Some false.
Proof.
  intros Hup Habsent fuel. induction fuel as [|fuel IH]; intros b Hfuel; [lia|].
  cbn. unfold strict_eq. rewrite bool_decide_false by (by intros <-).
  destruct (prop h (VRef b) "parent") as [| | | | |p] eqn:Hparent.
  6: { apply IH. assert (Hlink : parent_link h b p) by done.
       apply Hup in Hlink. lia. }
  all: apply contains_loop_absent_off_graph; (done || lia).
Qed.

(** X12. Absent arguments are contained in nothing and contain nothing:
    [contains(a, b)] is false as soon as [b] is [null] or [undefined] (or
    any falsy value), at the first test of the loop, and in a tree it is
    false for every node [b] when [a] is absent. *)
Theorem contains_absent (h : Heap) (depth : loc → nat) (a : jsval) (b : loc)
    (fuel : nat) :
  upward h depth → (depth b + 3 ≤ fuel)%nat →
  (∀ absent, truthy absent = false →
     contains h fuel a absent = Some false ∧
     contains h fuel absent (VRef b) = Some false).
Proof.
  intros Hup Hfuel absent Habsent. unfold contains. split.
  - destruct fuel as [|fuel]; [lia|]. cbn. by rewrite Habsent.
  - by apply (contains_loop_absent h depth).
Qed.

Lemma contains_absent_witness :
  upward (heap sample_page) sample_depth ∧ (sample_depth 1 + 3 ≤ 4)%nat ∧
  contains (heap sample_page) 4 (VRef 2) VNull = Some false ∧
  contains (heap sample_page) 4 VNull (VRef 1) = Some false.
Proof.
  assert (H1 : (sample_depth 1 + 3 ≤ 4)%nat) by (vm_compute; lia).
  split; [exact sample_page_upward|]. split; [exact H1|].
  apply (contains_absent (heap sample_page) sample_depth (VRef 2) 1 4
           sample_page_upward H1 VNull eq_refl).
Defined.

(** ** The synthetic shadow root *)

Lemma prop_lookup h l o name :
  h !! l = Some o → prop h (VRef l) name = el_get o name.
Proof. intros Hl. unfold prop. by rewrite Hl. Qed.

Lemma createShadowRoot_heap w el doc o :
  heap w !! el = Some o →
  ∃ w',
    createShadowRoot w el doc = Ok (VRef (fresh (dom (heap w))), w') ∧
    heap w !! fresh (dom (heap w)) = None ∧
    fresh (dom (heap w)) ≠ el ∧
    heap w' !! el
    = Some (el_set o "shadowRoot" (VRef (fresh (dom (heap w))))) ∧
    heap w' !! fresh (dom (heap w))
    = Some (el_set (new_fragment doc) "parent" (VRef el)) ∧
    (∀ l, l ≠ el → l ≠ fresh (dom (heap w)) → heap w' !! l = heap w !! l) ∧
    defaultDoc w' = defaultDoc w ∧ dispatched w' = dispatched w.
Proof.
  intros Hel. set (fragment := fresh (dom (heap w))).
  assert (Hfresh : heap w !! fragment = None).
  { apply not_elem_of_dom, is_fresh. }
  assert (Hne : fragment ≠ el) by congruence.
  set (h1 := <[fragment := new_fragment doc]> (heap w)).
  set (h2 := alter (fun o => el_set o "shadowRoot" (VRef fragment)) el h1).
  set (h3 := alter (fun o => el_set o "parent" (VRef el)) fragment h2).
  assert (Hel2 : h2 !! el = Some (el_set o "shadowRoot" (VRef fragment))).
  { unfold h2, h1. by rewrite lookup_alter_eq, lookup_insert_ne, Hel. }
  assert (Hel3 : h3 !! el = Some (el_set o "shadowRoot" (VRef fragment))).
  { unfold h3. by rewrite lookup_alter_ne. }
  assert (Hshadow2 : prop h2 (VRef el) "shadowRoot" = VRef fragment).
  { rewrite (prop_lookup _ _ _ _ Hel2). apply el_get_set. }
  assert (Hshadow3 : prop h3 (VRef el) "shadowRoot" = VRef fragment).
  { rewrite (prop_lookup _ _ _ _ Hel3). apply el_get_set. }
  exists (mkWorld h3 (defaultDoc w) (dispatched w)).
  split; [|split; [done|split; [done|split; [done|split; [|split; [|done]]]]]].
  - unfold createShadowRoot, createDocumentFragment. cbn.
    fold fragment. fold h1. fold h2. rewrite Hshadow2. cbn.
    fold h3. by rewrite Hshadow3.
  - cbn. unfold h3, h2, h1.
    by rewrite lookup_alter_eq, lookup_alter_ne, lookup_insert_eq.
  - intros l Hl Hl'. cbn. unfold h3, h2, h1.
    by rewrite !lookup_alter_ne, lookup_insert_ne.
Qed.

(** X13. [createShadowRoot(el, doc)] on a live element makes a new object,
    stores it as [el.shadowRoot] and points its [parent] at [el]: afterwards
    [getShadowRoot(el)] is that object, [hasShadowRoot(el)] is true,
    [contains(el, shadowRoot)] is true, and the new fragment has no shadow
    root of its own.  Every other object, and everything else of [el], is as
    before.  A second call is not refused: it replaces the shadow root by
    another new object, while the first one still names [el] as parent. *)
Theorem createShadowRoot_attaches (w : World) (el doc : loc) (o : EngineObject) :
  heap w !! el = Some o →
  ∃ root w',
    createShadowRoot w el doc = Ok (VRef root, w') ∧
    heap w !! root = None ∧
    getShadowRoot w' (VRef el) = Ok (VRef root) ∧
    hasShadowRoot w' (VRef el) = Ok true ∧
    hasShadowRoot w' (VRef root) = Ok false ∧
    prop (heap w') (VRef root) "parent" = VRef el ∧
    (∀ fuel, (2 ≤ fuel)%nat →
       contains (heap w') fuel (VRef el) (VRef root) = Some true) ∧
    (∀ l, l ≠ el → l ≠ root → heap w' !! l = heap w !! l) ∧
    (∀ name, name ≠ "shadowRoot" →
       prop (heap w') (VRef el) name = prop (heap w) (VRef el) name) ∧
    (∃ root2 w'',
       createShadowRoot w' el doc = Ok (VRef root2, w'') ∧
       root2 ≠ root ∧
       getShadowRoot w'' (VRef el) = Ok (VRef root2) ∧
       prop (heap w'') (VRef root) "parent" = VRef el).
Proof.
  intros Hel.
  destruct (createShadowRoot_heap w el doc o Hel)
    as (w' & Hcreate & Hfresh & Hne & Hel' & Hroot' & Hothers & _).
  set (root := fresh (dom (heap w))) in *.
  destruct (createShadowRoot_heap w' el doc _ Hel')
    as (w'' & Hcreate2 & Hfresh2 & Hne2 & Hel'' & Hroot2 & Hothers2 & _).
  set (root2 := fresh (dom (heap w'))) in *.
  assert (Hparent : prop (heap w') (VRef root) "parent" = VRef el).
  { rewrite (prop_lookup _ _ _ _ Hroot'). apply el_get_set. }
  exists root, w'. split; [done|]. split; [done|].
  unfold getShadowRoot, hasShadowRoot. cbn.
  rewrite (prop_lookup _ _ _ _ Hel'), (prop_lookup _ _ _ _ Hroot').
  rewrite el_get_set. split; [done|]. split; [done|]. split; [done|].
  split; [done|]. split; [|split; [done|split]].
  - intros fuel Hfuel. destruct fuel as [|[|fuel]]; [lia..|].
    unfold contains. cbn. unfold strict_eq.
    rewrite bool_decide_false by congruence. rewrite Hparent. cbn.
    by rewrite bool_decide_true.
  - intros name Hname.
    rewrite (prop_lookup _ _ _ _ Hel'), (prop_lookup _ _ _ _ Hel).
    by apply el_get_set_ne.
  - assert (Hdiff : root2 ≠ root) by congruence.
    exists root2, w''. split; [done|]. split; [done|].
    rewrite (prop_lookup _ _ _ _ Hel''), el_get_set. split; [done|].
    unfold prop. rewrite Hothers2 by done. rewrite Hroot'. apply el_get_set.
Qed.

Lemma createShadowRoot_attaches_witness :
  heap sample_page !! 1%positive
  = Some (mkObject ∅ {["ownerDocument" := VRef 2; "parent" := VRef 2]}) ∧
  ∃ root w',
    createShadowRoot sample_page 1 2 = Ok (VRef root, w') ∧
    getShadowRoot w' (VRef 1) = Ok (VRef root) ∧
    hasShadowRoot w' (VRef 1) = Ok true.
Proof.
  split; [reflexivity|].
  destruct (createShadowRoot_attaches sample_page 1 2 _ eq_refl)
    as (root & w' & Hcreate & _ & Hget & Hhas & _).
  exists root, w'. split; [exact Hcreate|]. split; [exact Hget|exact Hhas].
Defined.

(** ** Node classification: absent nodes, exclusive classes *)

(** X14. Only [isElementNode] tolerates an absent node: on [null] and
    [undefined] it returns false, whether or not the default document
    exists, while [isTextNode] and [isCommentNode] throw a [TypeError] on
    them even once the default document has been made.  A falsy value of
    another kind is no element either.  On a node that is present,
    [isElementNode] needs the default document like its siblings: without
    one it throws. *)
Theorem absent_node_classification (w : World) (node : jsval) :
  (node = VNull ∨ node = VUndef →
   isElementNode w node = Ok false ∧
   isTextNode w node
   = Throw (TypeError ("Cannot read property 'nodeType' of " +:+ to_string node)) ∧
   isCommentNode w node
   = Throw (TypeError ("Cannot read property 'nodeType' of " +:+ to_string node))) ∧
  (truthy node = false → isElementNode w node = Ok false) ∧
  (truthy node = true → defaultDoc w = None →
   isElementNode w node
   = Throw (TypeError "Cannot read property 'ELEMENT_NODE' of undefined")).
Proof.
  split; [|split].
  - by intros [-> | ->].
  - intros Hfalsy. unfold isElementNode. by rewrite Hfalsy.
  - intros Htruthy Hnone. unfold isElementNode, static_defaultDoc.
    rewrite Htruthy, Hnone. by destruct node.
Qed.

Lemma absent_node_classification_witness :
  truthy (VRef 1) = true ∧ defaultDoc sample_page = None ∧
  isElementNode sample_page (VRef 1)
  = Throw (TypeError "Cannot read property 'ELEMENT_NODE' of undefined").
Proof.
  split; [reflexivity|]. split; [reflexivity|].
  apply (absent_node_classification sample_page (VRef 1)); reflexivity.
Defined.

(** X15. With a default document whose [TEXT_NODE], [COMMENT_NODE] and
    [ELEMENT_NODE] differ from one another, the three classifiers return on
    every node that is present, and at most one of them returns true. *)
Theorem classifiers_exclusive (w : World) (doc : loc) (node : jsval) :
  defaultDoc w = Some doc →
  prop (heap w) (VRef doc) "TEXT_NODE" ≠ prop (heap w) (VRef doc) "COMMENT_NODE" →
  prop (heap w) (VRef doc) "TEXT_NODE" ≠ prop (heap w) (VRef doc) "ELEMENT_NODE" →
  prop (heap w) (VRef doc) "COMMENT_NODE" ≠ prop (heap w) (VRef doc) "ELEMENT_NODE" →
  node ≠ VUndef → node ≠ VNull →
  ∃ text comment element,
    isTextNode w node = Ok text ∧
    isCommentNode w node = Ok comment ∧
    isElementNode w node = Ok element ∧
    text && comment = false ∧ text && element = false ∧
    comment && element = false.
Proof.
  intros Hdoc Htc Hte Hce Hu Hn.
  unfold isTextNode, isCommentNode, isElementNode, static_defaultDoc.
  rewrite Hdoc. cbn.
  assert (Hnode : get_prop (heap w) node "nodeType"
                  = Ok (prop (heap w) node "nodeType")) by (by destruct node).
  rewrite Hnode. cbn. unfold strict_eq.
  set (nodeType := prop (heap w) node "nodeType") in *.
  exists (bool_decide (nodeType = prop (heap w) (VRef doc) "TEXT_NODE")),
    (bool_decide (nodeType = prop (heap w) (VRef doc) "COMMENT_NODE")),
    (if truthy node
     then bool_decide (nodeType = prop (heap w) (VRef doc) "ELEMENT_NODE")
     else false).
  split; [done|]. split; [done|]. split; [by destruct (truthy node)|].
  repeat split.
  - repeat case_bool_decide; try done. congruence.
  - destruct (truthy node); repeat case_bool_decide; try done;
      try apply andb_false_r. congruence.
  - destruct (truthy node); repeat case_bool_decide; try done;
      try apply andb_false_r. congruence.
Qed.

Lemma classifiers_exclusive_witness :
  let w := (getDefaultDocument sample_page).2 in
  let doc := (getDefaultDocument sample_page).1 in
  defaultDoc w = Some doc ∧
  ∃ text comment element,
    isTextNode w (VRef doc) = Ok text ∧
    isCommentNode w (VRef doc) = Ok comment ∧
    isElementNode w (VRef doc) = Ok element ∧
    text && comment = false ∧ text && element = false ∧
    comment && element = false.
Proof.
  split; [reflexivity|].
  apply (classifiers_exclusive (getDefaultDocument sample_page).2
           (getDefaultDocument sample_page).1);
    [reflexivity|vm_compute; discriminate..].
Defined.

(** ** The default document and the objects that exist *)

(** X16. [getDefaultDocument()] does not disturb what exists: every object
    of the heap is kept as it is, so every property read on it is unchanged,
    and no event is delivered.  When the field is unassigned the document
    returned is a new object; when it is assigned the call changes
    nothing. *)
Theorem getDefaultDocument_preserves (w : World) :
  let '(doc, w') := getDefaultDocument w in
  (∀ l o, heap w !! l = Some o → heap w' !! l = Some o) ∧
  (∀ l name, is_Some (heap w !! l) →
     prop (heap w') (VRef l) name = prop (heap w) (VRef l) name) ∧
  dispatched w' = dispatched w ∧
  (defaultDoc w = None →
     heap w !! doc = None ∧ heap w' !! doc = Some new_document) ∧
  (∀ d, defaultDoc w = Some d → doc = d ∧ w' = w).
Proof.
  unfold getDefaultDocument.
  destruct (defaultDoc w) as [d|] eqn:Hdoc; cbn.
  { split; [done|]. split; [done|]. split; [done|]. split; [done|].
    by intros d' [= <-]. }
  assert (Hfresh : heap w !! fresh (dom (heap w)) = None).
  { apply not_elem_of_dom, is_fresh. }
  assert (Hkept : ∀ l o, heap w !! l = Some o →
            <[fresh (dom (heap w)) := new_document]> (heap w) !! l = Some o).
  { intros l o Hl. rewrite lookup_insert_ne; [done|]. congruence. }
  split; [done|]. split; [|split; [done|split; [|done]]].
  - intros l name [o Hl]. unfold prop. by rewrite (Hkept _ _ Hl), Hl.
  - intros _. split; [done|]. apply lookup_insert_eq.
Qed.

(** ** Global event targets and dispatch *)

(** X17. The window that [dispatchEvent] reaches is the one
    [getGlobalEventTarget] names.  When [getGlobalEventTarget(doc, "window")]
    returns an object for the document owning [el], [dispatchEvent(el, evt)]
    delivers [evt] to [el] and then to that object and does nothing else;
    when it returns [null] or [undefined], only [el] receives the event.
    For other targets: ["document"] is [doc] itself, and an unknown name is
    [null] whatever [doc] is. *)
Theorem dispatchEvent_reaches_window_target (w : World) (el : loc)
    (evt : jsval) :
  object_or_nullish (prop (heap w) (VRef el) "ownerDocument") →
  let doc := VRef (owning_document (heap w) el) in
  (∀ win, getGlobalEventTarget (heap w) doc "window" = Ok (VRef win) →
     dispatchEvent w el evt
     = Ok (mkWorld (heap w) (defaultDoc w)
             (dispatched w ++ [(el, evt); (win, evt)]))) ∧
  (getGlobalEventTarget (heap w) doc "window" = Ok VNull ∨
   getGlobalEventTarget (heap w) doc "window" = Ok VUndef →
     dispatchEvent w el evt
     = Ok (mkWorld (heap w) (defaultDoc w) (dispatched w ++ [(el, evt)]))) ∧
  getGlobalEventTarget (heap w) doc "document" = Ok doc ∧
  (∀ anything target,
     target ≠ "window" → target ≠ "document" → target ≠ "body" →
     getGlobalEventTarget (heap w) anything target = Ok VNull).
Proof.
  intros Hown. cbn zeta.
  assert (Hdoc : (if truthy (prop (heap w) (VRef el) "ownerDocument")
                  then prop (heap w) (VRef el) "ownerDocument" else VRef el)
                 = VRef (owning_document (heap w) el)).
  { unfold owning_document.
    by destruct (prop (heap w) (VRef el) "ownerDocument"). }
  assert (Hdispatch : ∀ view,
    prop (heap w) (VRef (owning_document (heap w) el)) "defaultView" = view →
    dispatchEvent w el evt
    = if truthy view
      then engine_dispatchEvent
             (mkWorld (heap w) (defaultDoc w) (dispatched w ++ [(el, evt)]))
             view evt
      else Ok (mkWorld (heap w) (defaultDoc w) (dispatched w ++ [(el, evt)]))).
  { intros view Hview. unfold dispatchEvent. cbn. by rewrite Hdoc, Hview. }
  split; [|split; [|split]].
  - intros win [= Hwin]. rewrite (Hdispatch _ Hwin). cbn.
    by rewrite <- app_assoc.
  - intros [[= Hview]|[= Hview]]; by rewrite (Hdispatch _ Hview).
  - done.
  - intros anything target Hw Hd Hb. unfold getGlobalEventTarget.
    destruct (String.eqb_spec target "window"); [done|].
    destruct (String.eqb_spec target "document"); [done|].
    by destruct (String.eqb_spec target "body").
Qed.

Lemma dispatchEvent_reaches_window_target_witness :
  object_or_nullish (prop (heap sample_page) (VRef 1) "ownerDocument") ∧
  getGlobalEventTarget (heap sample_page)
    (VRef (owning_document (heap sample_page) 1)) "window" = Ok (VRef 3) ∧
  dispatchEvent sample_page 1 (VRef 4)
  = Ok (mkWorld (heap sample_page) (defaultDoc sample_page)
          (dispatched sample_page ++ [(1%positive, VRef 4); (3%positive, VRef 4)])).
Proof.
  assert (Hown : object_or_nullish
            (prop (heap sample_page) (VRef 1) "ownerDocument"))
    by (vm_compute; exact I).
  split; [exact Hown|]. split; [reflexivity|].
  destruct (dispatchEvent_reaches_window_target sample_page 1 (VRef 4) Hown)
    as [Hwin _].
  apply (Hwin 3%positive). reflexivity.
Defined.

(** ** The style codec: values are not escaped *)

(** X18. [setStyle] does not escape its value.  Take an element without
    style, two distinct plain names [n] and [k] (trimmed, without colon or
    semicolon, other than [__proto__]), neither of them [hasOwnProperty],
    and two plain texts [v] and [v2] (trimmed, without semicolon).  Then
    [setStyle(el, n, v + ";" + k + ":" + v2)] declares both styles:
    afterwards [getStyle(el, n)] is [v] and [getStyle(el, k)] is [v2]. *)
Theorem setStyle_does_not_escape (el : Element) (styleName v k v2 : string) :
  unstyled el →
  plain_name styleName → plain_text v → plain_name k → plain_text v2 →
  styleName ≠ k → styleName ≠ "hasOwnProperty" → k ≠ "hasOwnProperty" →
  ∃ el',
    setStyle el styleName (VStr (v +:+ ";" +:+ k +:+ ":" +:+ v2)) = Ok el' ∧
    getStyle el' styleName = Ok v ∧
    getStyle el' k = Ok v2.
Proof.
  intros Hun Hname Hv Hk Hv2 Hdiff Hmethod Hmethod'.
  destruct (unstyled_setStyle el styleName
              (v +:+ ";" +:+ k +:+ ":" +:+ v2) Hun)
    as (el' & Hset & Hattr).
  { apply Hname. }
  { by destruct v. }
  exists el'. split; [done|].
  assert (Hread : _readStyleAttribute el' = Ok [(styleName, v); (k, v2)]).
  { apply _readStyleAttribute_emit.
    - split.
      + cbn. apply NoDup_cons. split; [by intros ?%list_elem_of_singleton|].
        apply NoDup_singleton.
      + repeat apply Forall_cons_2; [done..|apply Forall_nil_2].
    - rewrite Hattr. f_equal. cbn [emit foldr fst snd].
      rewrite !append_assoc. reflexivity. }
  rewrite !(getStyle_read_style _ _ _ Hread). unfold read_style. cbn.
  destruct (String.eqb_spec styleName "hasOwnProperty"); [done|].
  destruct (String.eqb_spec k "hasOwnProperty"); [done|].
  rewrite String.eqb_refl.
  destruct (String.eqb_spec styleName k); [done|].
  by rewrite String.eqb_refl.
Qed.

Lemma setStyle_does_not_escape_witness :
  unstyled (mkObject ∅ ∅) ∧
  ∃ el',
    setStyle (mkObject ∅ ∅) "color"
      (VStr ("red" +:+ ";" +:+ "position" +:+ ":" +:+ "fixed")) = Ok el' ∧
    getStyle el' "color" = Ok "red" ∧
    getStyle el' "position" = Ok "fixed".
Proof.
  assert (Hun : unstyled (mkObject ∅ ∅)) by reflexivity.
  split; [exact Hun|].
  apply (setStyle_does_not_escape (mkObject ∅ ∅) "color" "red" "position"
           "fixed" Hun); try discriminate; by repeat split.
Defined.
